(** * Tinkercad serial <-> MQTT bridge: a shallow embedding of
    [mqtt-bridge-v1.js] and the properties of its translation loop.

    JavaScript strings are sequences of UTF-16 code units; they are modelled
    as lists of code units.  The poll callback and the message handler are
    written in a small state-and-exception monad whose state is the one
    mutable variable of the script ([lastData]) together with the history of
    observable effects (console lines, publishes, simulated input). *)

From Stdlib Require Import NArith Ascii String.
From Stdlib.Strings Require Import Byte.
From stdpp Require Import base tactics option list.

Local Open Scope N_scope.

(** ** Strings *)

(** A string is its list of UTF-16 code units. *)
Definition jsstring := list N.

(** An ASCII literal read as a JavaScript string. *)
Definition lit (s : string) : jsstring :=
  List.map N_of_ascii (list_ascii_of_string s).

Definition LF : N := 10.
Definition CR : N := 13.
Definition SP : N := 32.

(** The class [\s] of regular expressions, which is also what
    [String.prototype.trim] strips: WhiteSpace and LineTerminator. *)
Definition is_ws (c : N) : bool :=
  (c =? 9) || (c =? 10) || (c =? 11) || (c =? 12) || (c =? 13) || (c =? 32)
  || (c =? 160) || (c =? 5760) || ((8192 <=? c) && (c <=? 8202))
  || (c =? 8232) || (c =? 8233) || (c =? 8239) || (c =? 8287)
  || (c =? 12288) || (c =? 65279).

(** Truthiness of a string: only the empty string is falsy. *)
Definition truthy (s : jsstring) : bool :=
  match s with [] => false | _ :: _ => true end.

Definition str_eqb (a b : jsstring) : bool := bool_decide (a = b).

(** [s.trim()] *)
Fixpoint trim_start (s : jsstring) : jsstring :=
  match s with
  | [] => []
  | c :: s' => if is_ws c then trim_start s' else s
  end.

Fixpoint trim_end (s : jsstring) : jsstring :=
  match s with
  | [] => []
  | c :: s' =>
      match trim_end s' with
      | [] => if is_ws c then [] else [c]
      | t => c :: t
      end
  end.

Definition trim (s : jsstring) : jsstring := trim_end (trim_start s).

(** Adding a code unit to the piece under construction. *)
Definition push_front (c : N) (pieces : list jsstring) : list jsstring :=
  match pieces with
  | p :: ps => (c :: p) :: ps
  | [] => [[c]]
  end.

(** [s.split(/\s+/)]: every maximal run of whitespace is one separator; a
    separator at either end leaves an empty piece there, and the empty
    string splits into one empty piece.  [in_sep] tells that the previous
    code unit belonged to the separator being skipped. *)
Fixpoint split_ws_from (in_sep : bool) (s : jsstring) : list jsstring :=
  match s with
  | [] => [[]]
  | c :: s' =>
      if is_ws c then
        if in_sep then split_ws_from true s' else [] :: split_ws_from true s'
      else push_front c (split_ws_from false s')
  end.

Definition split_ws (s : jsstring) : list jsstring := split_ws_from false s.

(** [s.split(/\r?\n/)]: a separator is a line feed, together with the
    carriage return right before it when there is one. *)
Fixpoint split_lines (s : jsstring) : list jsstring :=
  match s with
  | [] => [[]]
  | c :: s' =>
      if c =? LF then [] :: split_lines s'
      else
        match s' with
        | c' :: s'' =>
            if (c =? CR) && (c' =? LF) then [] :: split_lines s''
            else push_front c (split_lines s')
        | [] => push_front c (split_lines s')
        end
  end.

(** [a.slice(-n)]: the last [n] elements, all of them when there are fewer. *)
Definition slice_last {A} (n : nat) (a : list A) : list A :=
  drop (length a - n) a.

(** [a.join(sep)] *)
Fixpoint join (sep : jsstring) (a : list jsstring) : jsstring :=
  match a with
  | [] => []
  | [x] => x
  | x :: a' => x ++ sep ++ join sep a'
  end.

(** [s.includes(sub)] *)
Fixpoint starts_with (sub s : jsstring) : bool :=
  match sub, s with
  | [], _ => true
  | _ :: _, [] => false
  | a :: sub', b :: s' => (a =? b) && starts_with sub' s'
  end.

Fixpoint includes (s sub : jsstring) : bool :=
  starts_with sub s ||
  match s with
  | [] => false
  | _ :: s' => includes s' sub
  end.

(** ** Records *)

Record PubRecord := mkRecord { topic : jsstring; payload : jsstring }.

(** The body of the loop over the retained lines, up to the publish:
    a blank line and a line of fewer than two parts are skipped. *)
Definition parse_line (line : jsstring) : option PubRecord :=
  if negb (truthy (trim line)) then None
  else
    let parts := split_ws (trim line) in
    if (length parts <? 2)%nat then None
    else
      match parts with
      | part0 :: _ => Some (mkRecord part0 (join (lit " ") (drop 1 parts)))
      | [] => None
      end.

(** The lines a snapshot is cut into, of which the last ten are kept. *)
Definition retained_lines (text : jsstring) : list jsstring :=
  slice_last 10 (split_lines text).

(** ** Effects *)

(** A thrown value; the handlers only read its [message]. *)
Record Error := mkError { err_message : jsstring }.

(** The keys the script presses. *)
Inductive Key := Backspace | Enter.

(** An element handle stands for one element of the document. *)
Definition ElementHandle := nat.

(** What the script does to the outside, in the order it happens. *)
Inductive Event :=
| LogPublish (topic payload : jsstring)   (* console.log("-> publish:", ...) *)
| Publish (topic payload : jsstring)      (* client.publish(topic, payload) *)
| LogPollError (msg : jsstring)           (* console.error("poll error:", ...) *)
| LogMqtt (topic msg : jsstring)          (* console.log(`<- MQTT: ...`) *)
| LogNoFrame                              (* "Could not locate the ... frame." *)
| Click (el : ElementHandle) (clickCount : nat)
| Press (key : Key)
| TypeText (el : ElementHandle) (text : jsstring)
| LogSent (msg : jsstring)                (* "Sent to Tinkercad Serial: ..." *)
| LogNoInput                              (* "Serial input box not found ..." *)
| LogSendError (msg : jsstring).          (* console.error("Error sending ...") *)

(** The mutable variable of the script and the effects so far. *)
Record World := mkWorld { lastData : jsstring; trace : list Event }.

(** A computation either returns or throws, and leaves a world behind. *)
Definition M (A : Type) : Type := World -> (Error + A) * World.

#[global] Instance M_ret : MRet M := fun A (a : A) w => (inr a, w).

#[global] Instance M_bind : MBind M := fun A B (f : A -> M B) (m : M A) w =>
  match m w with
  | (inr a, w') => f a w'
  | (inl e, w') => (inl e, w')
  end.

Definition throw {A} (e : Error) : M A := fun w => (inl e, w).

(** [try { body } catch (err) { handler err }] *)
Definition try_catch {A} (body : M A) (handler : Error -> M A) : M A :=
  fun w =>
    match body w with
    | (inr a, w') => (inr a, w')
    | (inl e, w') => handler e w'
    end.

Definition emit (ev : Event) : M unit :=
  fun w => (inr tt, mkWorld (lastData w) (trace w ++ [ev])).

Definition get_lastData : M jsstring := fun w => (inr (lastData w), w).

Definition set_lastData (s : jsstring) : M unit :=
  fun w => (inr tt, mkWorld s (trace w)).

(** The outcome of an awaited call, as the environment decides it. *)
Definition await {A} (r : Error + A) : M A :=
  match r with
  | inl e => throw e
  | inr a => mret a
  end.

(** A call made for its effect [ev], which happens unless the call throws. *)
Definition call (failure : option Error) (ev : Event) : M unit :=
  match failure with
  | Some e => throw e
  | None => emit ev
  end.

(** [for (const x of l) { f x }] *)
Fixpoint for_each {A} (l : list A) (f : A -> M unit) : M unit :=
  match l with
  | [] => mret tt
  | x :: l' => f x ;; for_each l' f
  end.

(** ** Startup *)

Record Config := mkConfig { URL : jsstring; BROKER : jsstring; PORT : jsstring }.

Inductive Startup :=
| Exit (stderr : jsstring) (status : Z)
| Run (cfg : Config).

Definition usage : jsstring :=
  lit "Usage: node mqtt-bridge_v2.js " ++ [34] ++ lit "<tinkercad-url>" ++ [34]
  ++ lit " [broker] [port]".

(** The destructuring of [process.argv] and the check that follows it.  A
    default applies where the array has no element. *)
Definition startup (argv : list jsstring) : Startup :=
  let BROKER := default (lit "localhost") (argv !! 3%nat) in
  let PORT := default (lit "1883") (argv !! 4%nat) in
  match argv !! 2%nat with
  | None => Exit usage 1
  | Some URL =>
      if negb (truthy URL) then Exit usage 1
      else Run (mkConfig URL BROKER PORT)
  end.

(** The address given to [mqtt.connect]. *)
Definition broker_address (cfg : Config) : jsstring :=
  lit "mqtt://" ++ BROKER cfg ++ lit ":" ++ PORT cfg.

(** ** Serial output polling *)

(** What one tick meets: the text of the document body ([None] when there is
    no body) or the error of the evaluation, and whether a publish throws,
    which may depend on everything that happened before it. *)
Record PollEnv := mkPollEnv {
  body_innerText : Error + option jsstring;
  publish_failure : list Event -> jsstring -> jsstring -> option Error
}.

(** [(document.body && document.body.innerText) || ''] *)
Definition page_text (body : option jsstring) : jsstring :=
  match body with
  | Some t => if truthy t then t else []
  | None => []
  end.

(** The snapshot the tick extracts, or the error of the extraction. *)
Definition snapshot (env : PollEnv) : Error + jsstring :=
  sum_map id page_text (body_innerText env).

Definition page_evaluate (env : PollEnv) : M jsstring := await (snapshot env).

Definition client_publish (env : PollEnv) (topic payload : jsstring) : M unit :=
  fun w => call (publish_failure env (trace w) topic payload)
                (Publish topic payload) w.

(** The body of the loop over the lines. *)
Definition publish_line (env : PollEnv) (line : jsstring) : M unit :=
  if negb (truthy (trim line)) then mret tt
  else
    let parts := split_ws (trim line) in
    if (length parts <? 2)%nat then mret tt
    else
      let topic := hd [] parts in
      let payload := join (lit " ") (drop 1 parts) in
      emit (LogPublish topic payload) ;;
      client_publish env topic payload.

(** The callback of [setInterval]. *)
Definition poll_tick (env : PollEnv) : M unit :=
  try_catch
    (text ← page_evaluate env;
     prev ← get_lastData;
     if negb (truthy text) || str_eqb text prev then mret tt
     else
       set_lastData text ;;
       let lines := slice_last 10 (split_lines text) in
       for_each lines (publish_line env))
    (fun err => emit (LogPollError (err_message err))).

(** ** MQTT messages to the serial monitor *)

Record Frame := mkFrame {
  frame_url : jsstring;                          (* f.url() *)
  frame_inputs : Error + list ElementHandle      (* f.$$("textarea, input[type='text']") *)
}.

(** What one message meets: the frames of the page and whether each
    simulated input throws. *)
Record PageEnv := mkPageEnv {
  page_frames : Error + list Frame;
  click_failure : ElementHandle -> option Error;
  press_failure : Key -> option Error;
  type_failure : ElementHandle -> jsstring -> option Error
}.

Section Handler.

(** [message.toString()], the decoding of the bytes of the message. *)
Variable toString : list Byte.byte -> jsstring.

(** What is inside the [try] of the handler. *)
Definition forward (env : PageEnv) (msg : jsstring) : M unit :=
  frames ← await (page_frames env);
  let targetFrame :=
    List.find (fun f => includes (frame_url f) (lit "/editel")) frames in
  match targetFrame with
  | None => emit LogNoFrame
  | Some targetFrame =>
      textInputs ← await (frame_inputs targetFrame);
      sent ←
        (if (0 <? length textInputs)%nat then
           match textInputs !! (length textInputs - 1)%nat with
           | Some serialInput =>
               call (click_failure env serialInput) (Click serialInput 3) ;;
               call (press_failure env Backspace) (Press Backspace) ;;
               call (type_failure env serialInput msg) (TypeText serialInput msg) ;;
               call (press_failure env Enter) (Press Enter) ;;
               emit (LogSent msg) ;;
               mret true
           | None => mret false
           end
         else mret false);
      if negb sent then emit LogNoInput else mret tt
  end.

(** The handler of [client.on("message", ...)]. *)
Definition on_message (env : PageEnv) (topic : jsstring)
    (message : list Byte.byte) : M unit :=
  let msg := toString message in
  emit (LogMqtt topic msg) ;;
  try_catch (forward env msg)
    (fun err => emit (LogSendError (err_message err))).

End Handler.

(** ** The words of the specification *)

(** The whitespace-separated tokens of a line: its maximal runs of code
    units that are not whitespace, from left to right.  [cur] is the token
    being read. *)
Definition flush (cur : jsstring) : list jsstring :=
  match cur with [] => [] | _ :: _ => [cur] end.

Fixpoint tokens_from (cur s : jsstring) : list jsstring :=
  match s with
  | [] => flush cur
  | c :: s' =>
      if is_ws c then flush cur ++ tokens_from [] s'
      else tokens_from (cur ++ [c]) s'
  end.

Definition tokens (s : jsstring) : list jsstring := tokens_from [] s.

(** The record of a line in the words of the specification: the first token
    and the other tokens joined by single spaces, when there are two tokens
    at least. *)
Definition record_of_tokens (ts : list jsstring) : option PubRecord :=
  match ts with
  | t :: p :: ps => Some (mkRecord t (join [SP] (p :: ps)))
  | _ => None
  end.

(** The records of the lines in the order of the lines. *)
Definition records (lines : list jsstring) : list PubRecord :=
  omap parse_line lines.

(** The events of publishing one record. *)
Definition publish_events (r : PubRecord) : list Event :=
  [LogPublish (topic r) (payload r); Publish (topic r) (payload r)].

(** The publishes among some events, in their order. *)
Definition published (evs : list Event) : list PubRecord :=
  omap (fun ev => match ev with
                  | Publish t p => Some (mkRecord t p)
                  | _ => None
                  end) evs.

(** No publish throws. *)
Definition publishes_succeed (env : PollEnv) : Prop :=
  forall h t p, publish_failure env h t p = None.

(** ** The text-entry surface *)

(** The four simulated inputs of one injection, in their order. *)
Definition injection (el : ElementHandle) (msg : jsstring) : list Event :=
  [Click el 3; Press Backspace; TypeText el msg; Press Enter].

(** The lines that report a message that was not delivered. *)
Definition failure_log (ev : Event) : Prop :=
  ev = LogNoFrame \/ ev = LogNoInput \/ exists m, ev = LogSendError m.

(** Modelled from the spec: the reaction of a text-entry surface of the
    simulator to the simulated input, which belongs to the browser and not
    to the script.  In the words of the specification a triple click selects
    all the existing content, the delete key clears it, typing enters the
    text, and enter submits what the surface holds. *)
Record Surface := mkSurface { content : jsstring; all_selected : bool }.

Record Dom := mkDom {
  focused : option ElementHandle;
  surfaces : ElementHandle -> Surface;
  submitted : list (ElementHandle * jsstring)
}.

Definition set_surface (el : ElementHandle) (s : Surface)
    (f : ElementHandle -> Surface) : ElementHandle -> Surface :=
  fun x => if decide (x = el) then s else f x.

(** Modelled from the spec: one event seen from the document. *)
Definition react (d : Dom) (ev : Event) : Dom :=
  match ev with
  | Click el n =>
      mkDom (Some el)
        (set_surface el (mkSurface (content (surfaces d el)) (n =? 3)%nat) (surfaces d))
        (submitted d)
  | Press Backspace =>
      match focused d with
      | Some el =>
          let s := surfaces d el in
          let s' := if all_selected s then mkSurface [] false
                    else mkSurface (removelast (content s)) false in
          mkDom (focused d) (set_surface el s' (surfaces d)) (submitted d)
      | None => d
      end
  | TypeText el text =>
      let s := surfaces d el in
      let s' := if all_selected s then mkSurface text false
                else mkSurface (content s ++ text) false in
      mkDom (Some el) (set_surface el s' (surfaces d)) (submitted d)
  | Press Enter =>
      match focused d with
      | Some el =>
          mkDom (focused d) (surfaces d)
            (submitted d ++ [(el, content (surfaces d el))])
      | None => d
      end
  | _ => d
  end.

Definition replay (evs : list Event) (d : Dom) : Dom := fold_left react evs d.

(** The frame the handler looks for. *)
Definition editor_frame (frames : list Frame) : option Frame :=
  List.find (fun f => includes (frame_url f) (lit "/editel")) frames.

(** A token is not empty and holds no whitespace. *)
Definition is_token (t : jsstring) : Prop :=
  t <> [] /\ Forall (fun c => is_ws c = false) t.

(** The world after some more events. *)
Definition after (w : World) (evs : list Event) : World :=
  mkWorld (lastData w) (trace w ++ evs).

(** ** Auxiliary notions *)

(** A piece that is not empty. *)
Definition nonempty (s : jsstring) : bool := truthy s.

(** Gluing [cur] in front of the first piece. *)
Definition glue (cur : jsstring) (l : list jsstring) : list jsstring :=
  match l with
  | p :: ps => (cur ++ p) :: ps
  | [] => [cur]
  end.

(** No piece is empty. *)
Definition all_nonempty (l : list jsstring) : Prop := Forall (fun p => p <> []) l.

(** What the loop does with a record. *)
Definition publish_record (env : PollEnv) (r : PubRecord) : M unit :=
  emit (LogPublish (topic r) (payload r)) ;;
  client_publish env (topic r) (payload r).

(** The handler of the [catch] of the tick. *)
Definition poll_catch (err : Error) : M unit :=
  emit (LogPollError (err_message err)).

(** ** Chrome detection and launch *)

(** The code units that [.] of a regular expression does not match. *)
Definition is_line_terminator (c : N) : bool :=
  (c =? 10) || (c =? 13) || (c =? 8232) || (c =? 8233).

(** What the group of the regular expression takes, any code units but
    line terminators: the code units up to the first line terminator. *)
Fixpoint take_line (s : jsstring) : jsstring :=
  match s with
  | [] => []
  | c :: s' => if is_line_terminator c then [] else c :: take_line s'
  end.

Definition REG_SZ : jsstring := lit "REG_SZ".

(** What follows "REG_SZ" in a match of the regular expression of the
    script (REG_SZ, one or more whitespace, and a group for the rest of the
    line): the whitespace part takes the whole run of whitespace, which must
    not be empty, and the group takes the rest of the line. *)
Definition capture_value (rest : jsstring) : option jsstring :=
  match rest with
  | d :: _ => if is_ws d then Some (take_line (trim_start rest)) else None
  | [] => None
  end.

(** [out.match] with that regular expression: the group of the leftmost
    match, or [None] for [null]. *)
Fixpoint match_REG_SZ (out : jsstring) : option jsstring :=
  match out with
  | [] => None
  | _ :: out' =>
      match (if starts_with REG_SZ out
             then capture_value (drop (length REG_SZ) out) else None) with
      | Some group => Some group
      | None => match_REG_SZ out'
      end
  end.

(** The two lines the detection can write. *)
Inductive SetupLog :=
| LogDetectedChrome (chromePath : jsstring)
| LogChromeNotFound.

(** The [try] around the registry query: [reg_query] is the output of
    [execSync(...).toString()] or what it throws.  Indexing the [null] of a
    failed match throws too, and the [catch] looks at no error. *)
Definition detect_chrome (reg_query : Error + jsstring)
    : option jsstring * list SetupLog :=
  match reg_query with
  | inl _ => (None, [LogChromeNotFound])
  | inr out =>
      match match_REG_SZ out with
      | None => (None, [LogChromeNotFound])
      | Some group =>
          let chromePath := trim group in
          (Some chromePath, [LogDetectedChrome chromePath])
      end
  end.

(** [executablePath: chromePath || undefined] *)
Definition executablePath (chromePath : option jsstring) : option jsstring :=
  match chromePath with
  | Some path => if truthy path then Some path else None
  | None => None
  end.

(** ** The start of the script *)

(** What the script does first, in the order of the file. *)
Inductive ProcessEffect :=
| ConsoleError (line : jsstring)                    (* console.error(...), line 25 *)
| ProcessExit (status : Z)                          (* process.exit(...), line 26 *)
| ExecSyncRegQuery                                  (* execSync('reg query ...'), line 37 *)
| ConsoleLog (line : SetupLog)                      (* lines 41 and 43 *)
| MqttConnect (address : jsstring)                  (* mqtt.connect(...), line 47 *)
| PuppeteerLaunch (executablePath : option jsstring). (* puppeteer.launch(...), line 58 *)

(** The script from its first line to the launch of the browser: the check
    of the arguments comes before everything else, and [process.exit] ends
    the script where it stands. *)
Definition script_start (argv : list jsstring) (reg_query : Error + jsstring)
    : list ProcessEffect :=
  match startup argv with
  | Exit stderr status => [ConsoleError stderr; ProcessExit status]
  | Run cfg =>
      [ExecSyncRegQuery]
      ++ List.map ConsoleLog (detect_chrome reg_query).2
      ++ [MqttConnect (broker_address cfg);
          PuppeteerLaunch (executablePath (detect_chrome reg_query).1)]
  end.

(** ** Successive ticks *)

(** The ticks of the timer, one after the other; each meets its own
    environment.  A tick does nothing before its one [await] and runs to its
    end after it, so that ticks do not interleave. *)
Fixpoint run_ticks (envs : list PollEnv) (w : World) : World :=
  match envs with
  | [] => w
  | env :: envs' => run_ticks envs' (poll_tick env w).2
  end.

(** The number of line feeds of a text. *)
Definition count_LF (s : jsstring) : nat :=
  length (List.filter (fun c => c =? LF) s).

(** The simulated inputs among some events, with the element they go to
    when they go to one. *)
Definition input_target (ev : Event) : option ElementHandle :=
  match ev with
  | Click el _ => Some el
  | TypeText el _ => Some el
  | _ => None
  end.

Definition is_input (ev : Event) : bool :=
  match ev with
  | Click _ _ | Press _ | TypeText _ _ => true
  | _ => false
  end.

(** [sub] occurs in [s]. *)
Definition contains (s sub : jsstring) : Prop :=
  exists a b, s = a ++ sub ++ b.

(** The lines of the tick that go with no publish. *)
Definition log_only (ev : Event) : Prop :=
  match ev with
  | LogPublish _ _ | LogPollError _ => True
  | _ => False
  end.

(** ** Sample data *)

(** A page that shows [text], with a broker that takes every publish. *)
Definition page_showing (text : jsstring) : PollEnv :=
  mkPollEnv (inr (Some text)) (fun _ _ _ => None).

(** A page that shows [text], with a client whose publish throws. *)
Definition page_showing_offline (text : jsstring) : PollEnv :=
  mkPollEnv (inr (Some text))
    (fun _ _ _ => Some (mkError (lit "client disconnecting"))).

Definition three_lines : jsstring :=
  join [LF] [lit "topic1 hello world"; lit "badline";
             lit "sensor/temperature 23.5 C"].

Definition eleven_lines : jsstring :=
  join [LF] [lit "t0 v0"; lit "t1 v1"; lit "t2 v2"; lit "t3 v3"; lit "t4 v4";
             lit "t5 v5"; lit "t6 v6"; lit "t7 v7"; lit "t8 v8"; lit "t9 v9";
             lit "t10 v10"].

(** The decoding of a message that holds ASCII text. *)
Definition ascii_text (message : list Byte.byte) : jsstring :=
  List.map Byte.to_N message.

Definition LED_ON : list Byte.byte :=
  [Byte.x4c; Byte.x45; Byte.x44; Byte.x5f; Byte.x4f; Byte.x4e].

(** A page with the editor frame, which holds two text inputs, where every
    simulated input goes through. *)
Definition editor_page : PageEnv :=
  mkPageEnv
    (inr [mkFrame (lit "https://www.tinkercad.com/things/abc") (inr [1%nat]);
          mkFrame (lit "https://www.tinkercad.com/things/abc/editel?tenant=circuits")
                  (inr [4%nat; 9%nat])])
    (fun _ => None) (fun _ => None) (fun _ _ => None).

(** A page without the editor frame. *)
Definition plain_page : PageEnv :=
  mkPageEnv (inr [mkFrame (lit "about:blank") (inr [1%nat])])
    (fun _ => None) (fun _ => None) (fun _ _ => None).

(** The editor page when typing throws. *)
Definition detached_page : PageEnv :=
  mkPageEnv (page_frames editor_page) (fun _ => None) (fun _ => None)
    (fun _ _ => Some (mkError (lit "Node is detached from document"))).

(** A document whose input 9 holds some text. *)
Definition used_dom : Dom :=
  mkDom None (fun _ => mkSurface (lit "old text") false) [].

(** A page whose text cannot be read. *)
Definition page_unreadable : PollEnv :=
  mkPollEnv (inl (mkError (lit "Execution context was destroyed")))
    (fun _ _ _ => None).

(** The output of the registry query where Chrome is installed. *)
Definition reg_head : jsstring :=
  [CR; LF]
  ++ lit "HKEY_LOCAL_MACHINE\SOFTWARE\Microsoft\Windows\CurrentVersion\App Paths\chrome.exe"
  ++ [CR; LF] ++ lit "    (Default)    ".

Definition chrome_exe : jsstring :=
  lit "C:\Program Files\Google\Chrome\Application\chrome.exe".

Definition reg_output : jsstring :=
  reg_head ++ REG_SZ ++ lit "    " ++ chrome_exe ++ [CR; LF; CR; LF].

(** ** Examples *)

Example split_ws_two_spaces :
  split_ws (lit "a  b c") = [lit "a"; lit "b"; lit "c"].
Proof. reflexivity. Qed.

Example split_ws_untrimmed : split_ws (lit " a ") = [[]; lit "a"; []].
Proof. reflexivity. Qed.

Example parse_line_hello :
  parse_line (lit "  topic1 hello   world ") =
  Some (mkRecord (lit "topic1") (lit "hello world")).
Proof. reflexivity. Qed.

Example parse_line_badline : parse_line (lit "badline") = None.
Proof. reflexivity. Qed.

Example split_lines_mixed :
  split_lines (lit "a" ++ [CR; LF] ++ lit "b" ++ [LF; CR] ++ lit "c") =
  [lit "a"; lit "b"; CR :: lit "c"].
Proof. reflexivity. Qed.

Example tokens_example :
  tokens (lit "  sensor/temperature 23.5   C ") =
  [lit "sensor/temperature"; lit "23.5"; lit "C"].
Proof. reflexivity. Qed.

(** ** Whitespace, trimming and splitting *)

Lemma split_ws_from_nonnil b s : split_ws_from b s <> [].
Proof.
  revert b; induction s as [|c s IH]; intros b; simpl; [congruence|].
  destruct (is_ws c); [destruct b; [apply IH | congruence]|].
  specialize (IH false). destruct (split_ws_from false s); simpl; congruence.
Qed.

(** Entering a separator adds at most an empty piece at the front. *)
Lemma split_ws_from_sep s :
  List.filter nonempty (split_ws_from true s) =
  List.filter nonempty (split_ws_from false s).
Proof.
  destruct s as [|c s]; simpl; [reflexivity|].
  destruct (is_ws c); reflexivity.
Qed.

Lemma glue_push_front cur c l :
  l <> [] -> glue cur (push_front c l) = glue (cur ++ [c]) l.
Proof.
  destruct l as [|p ps]; [congruence|]. intros _. simpl.
  by rewrite <- app_assoc.
Qed.

Lemma flush_filter cur : List.filter nonempty [cur] = flush cur.
Proof. by destruct cur. Qed.

(** The tokens are the non-empty pieces of the split. *)
Lemma tokens_from_split cur s :
  tokens_from cur s = List.filter nonempty (glue cur (split_ws_from false s)).
Proof.
  revert cur; induction s as [|c s IH]; intros cur; simpl.
  - rewrite app_nil_r. by destruct cur.
  - destruct (is_ws c) eqn:Hc.
    + simpl. rewrite app_nil_r, IH, split_ws_from_sep.
      pose proof (split_ws_from_nonnil false s) as Hn.
      destruct (split_ws_from false s) as [|p ps]; [congruence|].
      simpl. by destruct cur.
    + rewrite glue_push_front by apply split_ws_from_nonnil. apply IH.
Qed.

Lemma tokens_split s : tokens s = List.filter nonempty (split_ws s).
Proof.
  unfold tokens, split_ws. rewrite tokens_from_split.
  pose proof (split_ws_from_nonnil false s) as Hn.
  by destruct (split_ws_from false s).
Qed.

(** A string that trims to nothing on the right has no token. *)
Lemma tokens_from_blank cur s : trim_end s = [] -> tokens_from cur s = flush cur.
Proof.
  revert cur; induction s as [|c s IH]; intros cur; simpl; [done|].
  destruct (trim_end s) eqn:Ht; [|done].
  destruct (is_ws c); [|done]. intros _.
  rewrite IH by done. simpl. apply app_nil_r.
Qed.

Lemma tokens_from_trim_end cur s :
  tokens_from cur (trim_end s) = tokens_from cur s.
Proof.
  revert cur; induction s as [|c s IH]; intros cur; [done|].
  cbn [trim_end]. destruct (trim_end s) as [|d t] eqn:Ht.
  - simpl. destruct (is_ws c) eqn:Hc; simpl.
    + rewrite tokens_from_blank by done. simpl. by rewrite app_nil_r.
    + rewrite Hc. simpl. by rewrite tokens_from_blank.
  - rewrite <- Ht in IH |- *. simpl. destruct (is_ws c); by rewrite IH.
Qed.

Lemma tokens_trim_start s : tokens (trim_start s) = tokens s.
Proof.
  unfold tokens. induction s as [|c s IH]; [done|].
  simpl. destruct (is_ws c) eqn:Hc; [done|]. simpl. by rewrite Hc.
Qed.

Lemma tokens_trim s : tokens (trim s) = tokens s.
Proof.
  unfold trim, tokens. rewrite tokens_from_trim_end. apply tokens_trim_start.
Qed.

Lemma trim_start_head s c t : trim_start s = c :: t -> is_ws c = false.
Proof.
  induction s as [|d s IH]; simpl; [done|].
  destruct (is_ws d) eqn:Hd; [done|]. congruence.
Qed.

Lemma trim_end_head c s d t : trim_end (c :: s) = d :: t -> d = c.
Proof.
  simpl. destruct (trim_end s); [destruct (is_ws c)|]; congruence.
Qed.

Lemma trim_head s c t : trim s = c :: t -> is_ws c = false.
Proof.
  unfold trim. destruct (trim_start s) as [|d u] eqn:Hs; [done|].
  intros Ht. apply trim_end_head in Ht as ->. by eapply trim_start_head.
Qed.

Lemma push_front_nonempty c l : all_nonempty (List.tl l) -> all_nonempty (push_front c l).
Proof.
  destruct l as [|p ps]; simpl; intros H; constructor; done.
Qed.

Lemma all_nonempty_tl l : all_nonempty l -> all_nonempty (List.tl l).
Proof. destruct 1; [constructor | done]. Qed.

(** After [trim_end] no piece of the split is empty, except the first when
    the string starts with whitespace. *)
Lemma trim_end_pieces s :
  trim_end s <> [] ->
  all_nonempty (split_ws_from true (trim_end s)) /\
  all_nonempty (List.tl (split_ws_from false (trim_end s))).
Proof.
  induction s as [|c s IH]; [done|].
  cbn [trim_end]. destruct (trim_end s) as [|d t] eqn:Ht.
  - destruct (is_ws c) eqn:Hc; [done|]. intros _. simpl. rewrite Hc. simpl.
    split; repeat constructor; done.
  - intros _. destruct IH as [IH1 IH2]; [done|].
    set (u := d :: t) in *. clearbody u.
    cbn [split_ws_from]. destruct (is_ws c).
    + split; done.
    + split; [by apply push_front_nonempty|].
      pose proof (split_ws_from_nonnil false u) as Hn.
      destruct (split_ws_from false u); done.
Qed.

Lemma trim_pieces s : trim s <> [] -> all_nonempty (split_ws (trim s)).
Proof.
  intros Hne. unfold split_ws.
  destruct (trim s) as [|c t] eqn:Ht; [done|].
  pose proof (trim_head _ _ _ Ht) as Hc.
  unfold trim in Ht.
  pose proof (trim_end_pieces (trim_start s)) as Hp. rewrite Ht in Hp.
  destruct Hp as [_ Hp]; [done|].
  revert Hp. cbn [split_ws_from]. rewrite Hc. intros Hp.
  apply push_front_nonempty.
  pose proof (split_ws_from_nonnil false t) as Hn.
  destruct (split_ws_from false t); [done|]. done.
Qed.

Lemma filter_all_nonempty l : all_nonempty l -> List.filter nonempty l = l.
Proof.
  induction 1 as [|p l Hp _ IH]; [done|].
  simpl. destruct p; [done|]. simpl. by rewrite IH.
Qed.

(** On a line that does not trim to nothing, the parts of the script are
    the tokens of the line. *)
Lemma split_ws_trim s : trim s <> [] -> split_ws (trim s) = tokens s.
Proof.
  intros Hne. rewrite <- tokens_trim, tokens_split.
  symmetry. by apply filter_all_nonempty, trim_pieces.
Qed.

Lemma tokens_blank s : trim s = [] -> tokens s = [].
Proof. intros H. rewrite <- tokens_trim, H. done. Qed.

Lemma parse_line_tokens line : parse_line line = record_of_tokens (tokens line).
Proof.
  unfold parse_line. destruct (trim line) as [|c t] eqn:Ht.
  - simpl. by rewrite tokens_blank.
  - simpl. rewrite <- Ht, split_ws_trim by (rewrite Ht; done).
    destruct (tokens line) as [|t0 [|p ps]]; done.
Qed.

(** ** The poll tick *)

Lemma seq_run {A B} (m : M A) (k : M B) w :
  (m ;; k) w =
  match m w with
  | (inr _, w') => k w'
  | (inl e, w') => (inl e, w')
  end.
Proof. reflexivity. Qed.

Lemma publish_line_parse env line w :
  publish_line env line w =
  match parse_line line with
  | Some r => publish_record env r w
  | None => (inr tt, w)
  end.
Proof.
  unfold publish_line, parse_line.
  destruct (negb (truthy (trim line))); [done|].
  destruct (length (split_ws (trim line)) <? 2)%nat eqn:Hlen; [done|].
  destruct (split_ws (trim line)) as [|p0 ps]; [done|]. done.
Qed.

Lemma for_each_lines env lines w :
  for_each lines (publish_line env) w =
  for_each (records lines) (publish_record env) w.
Proof.
  revert w; induction lines as [|line lines IH]; intros w; [done|].
  unfold records in *. cbn [for_each omap list_omap].
  rewrite seq_run, publish_line_parse.
  destruct (parse_line line) as [r|]; [|apply IH].
  cbn [for_each]. rewrite seq_run.
  destruct (publish_record env r w) as [[e|[]] w1]; [done|apply IH].
Qed.

Lemma published_app evs1 evs2 :
  published (evs1 ++ evs2) = published evs1 ++ published evs2.
Proof. apply omap_app. Qed.

Lemma published_publish_events r : published (publish_events r) = [r].
Proof. by destruct r. Qed.

Lemma published_flat_map rs : published (flat_map publish_events rs) = rs.
Proof.
  induction rs as [|r rs IH]; [done|].
  cbn [flat_map]. rewrite published_app, published_publish_events, IH. done.
Qed.

(** Whatever the publishes do, the loop leaves [lastData] alone and what it
    has published is an initial part of the records, in their order. *)
Lemma publish_loop_any env rs w :
  exists evs,
    (for_each rs (publish_record env) w).2 = mkWorld (lastData w) (trace w ++ evs)
    /\ published evs `prefix_of` rs.
Proof.
  revert w; induction rs as [|r rs IH]; intros w.
  - exists []. destruct w. simpl. rewrite app_nil_r. split; [done|]. by exists [].
  - cbn [for_each]. unfold mbind, M_bind, publish_record at 1.
    unfold mbind, M_bind, emit at 1, client_publish, call. cbn [trace lastData].
    destruct (publish_failure env _ _ _) as [e|].
    + exists [LogPublish (topic r) (payload r)]. split; [done|].
      by exists (r :: rs).
    + unfold emit at 1. cbn [trace lastData].
      destruct (IH (mkWorld (lastData w)
        ((trace w ++ [LogPublish (topic r) (payload r)]) ++
         [Publish (topic r) (payload r)]))) as (evs & Hw & Hp).
      exists (publish_events r ++ evs). split.
      * rewrite Hw. cbn [trace lastData]. f_equal.
        unfold publish_events. by rewrite <- !app_assoc.
      * rewrite published_app, published_publish_events.
        by apply prefix_cons.
Qed.

(** When no publish throws the loop publishes every record. *)
Lemma publish_loop_ok env rs w :
  publishes_succeed env ->
  for_each rs (publish_record env) w =
  (inr tt, mkWorld (lastData w) (trace w ++ flat_map publish_events rs)).
Proof.
  intros Hok. revert w; induction rs as [|r rs IH]; intros w.
  - destruct w. simpl. by rewrite app_nil_r.
  - cbn [for_each]. unfold mbind, M_bind, publish_record at 1.
    unfold mbind, M_bind, emit at 1, client_publish, call. cbn [trace lastData].
    rewrite Hok. unfold emit at 1. cbn [trace lastData].
    rewrite IH. cbn [trace lastData flat_map]. do 2 f_equal.
    unfold publish_events. by rewrite <- !app_assoc.
Qed.

Lemma str_eqb_true a b : str_eqb a b = true <-> a = b.
Proof. unfold str_eqb. apply bool_decide_eq_true. Qed.

(** A tick whose snapshot is empty or is the last one does nothing. *)
Lemma poll_tick_same env w text :
  snapshot env = inr text ->
  text = [] \/ text = lastData w ->
  poll_tick env w = (inr tt, w).
Proof.
  intros Hs Hsame. unfold poll_tick, try_catch, page_evaluate.
  unfold mbind, M_bind. rewrite Hs. cbn [await]. unfold mret, M_ret, get_lastData.
  assert (negb (truthy text) || str_eqb text (lastData w) = true) as ->; [|done].
  destruct Hsame as [->| ->]; [done|].
  apply orb_true_iff. right. by apply str_eqb_true.
Qed.

(** A tick whose snapshot has changed stores it and then runs the loop over
    its retained lines. *)
Lemma poll_tick_changed env w text :
  snapshot env = inr text ->
  text <> [] -> text <> lastData w ->
  poll_tick env w =
  try_catch (for_each (retained_lines text) (publish_line env)) poll_catch
    (mkWorld text (trace w)).
Proof.
  intros Hs Hne Hch. unfold poll_tick, try_catch, page_evaluate.
  unfold mbind, M_bind. rewrite Hs. cbn [await]. unfold mret, M_ret, get_lastData.
  assert (negb (truthy text) || str_eqb text (lastData w) = false) as ->; [|done].
  apply orb_false_iff. split.
  - destruct text; done.
  - apply not_true_is_false. by rewrite str_eqb_true.
Qed.

Lemma poll_tick_ok env w text :
  snapshot env = inr text ->
  text <> [] -> text <> lastData w ->
  publishes_succeed env ->
  poll_tick env w =
  (inr tt, mkWorld text
     (trace w ++ flat_map publish_events (records (retained_lines text)))).
Proof.
  intros Hs Hne Hch Hok. rewrite (poll_tick_changed _ _ _ Hs Hne Hch).
  unfold try_catch. rewrite for_each_lines, publish_loop_ok by done. done.
Qed.

Lemma poll_tick_any env w text :
  snapshot env = inr text ->
  text <> [] -> text <> lastData w ->
  exists evs,
    poll_tick env w = (inr tt, mkWorld text (trace w ++ evs))
    /\ published evs `prefix_of` records (retained_lines text).
Proof.
  intros Hs Hne Hch. rewrite (poll_tick_changed _ _ _ Hs Hne Hch).
  unfold try_catch. rewrite for_each_lines.
  destruct (publish_loop_any env (records (retained_lines text))
              (mkWorld text (trace w))) as (evs & Hw & Hp).
  destruct (for_each _ _ _) as [[e|[]] w1]; cbn [snd] in Hw; subst w1.
  - exists (evs ++ [LogPollError (err_message e)]). split.
    + unfold poll_catch, emit. cbn [trace lastData]. by rewrite <- app_assoc.
    + rewrite published_app. simpl. by rewrite app_nil_r.
  - exists evs. done.
Qed.

Lemma slice_last_app {A} (early final : list A) n :
  length final = n -> slice_last n (early ++ final) = final.
Proof.
  intros <-. unfold slice_last. rewrite length_app.
  apply drop_app_length'. lia.
Qed.

Lemma slice_last_suffix {A} n (a : list A) :
  a = take (length a - n) a ++ slice_last n a /\ (length (slice_last n a) <= n)%nat.
Proof.
  unfold slice_last. rewrite take_drop, length_drop. split; [done | lia].
Qed.

(** ** The claims about the poll tick *)

(** C1: a retained line yields no record when it trims to nothing or has
    fewer than two whitespace-separated tokens; otherwise it yields the one
    record whose topic is its first token and whose payload is the other
    tokens joined by single spaces, as for "sensor/temperature 23.5 C"; and a
    tick that processes a snapshot publishes the records of its retained
    lines in the order of the lines. *)
Theorem line_records_in_order :
  (forall line, trim line = [] -> parse_line line = None) /\
  (forall line, (length (tokens line) < 2)%nat -> parse_line line = None) /\
  (forall line t p ps,
      tokens line = t :: p :: ps ->
      parse_line line = Some (mkRecord t (join [SP] (p :: ps)))) /\
  parse_line (lit "sensor/temperature 23.5 C") =
    Some (mkRecord (lit "sensor/temperature") (lit "23.5 C")) /\
  (forall env w text,
      snapshot env = inr text ->
      text <> [] -> text <> lastData w ->
      publishes_succeed env ->
      poll_tick env w =
      (inr tt, mkWorld text
         (trace w ++ flat_map publish_events (omap parse_line (retained_lines text))))).
Proof.
  split; [|split; [|split; [|split]]].
  - intros line Ht. by rewrite parse_line_tokens, tokens_blank.
  - intros line Hlen. rewrite parse_line_tokens.
    destruct (tokens line) as [|t [|p ps]]; simpl in *; [done | done | lia].
  - intros line t p ps Ht. by rewrite parse_line_tokens, Ht.
  - reflexivity.
  - intros env w text Hs Hne Hch Hok. by apply poll_tick_ok.
Qed.

(** C2: a tick whose snapshot is empty, or equal to the retained one,
    publishes nothing, logs nothing and leaves [lastData] as it was. *)
Theorem unchanged_snapshot_is_skipped env w text :
  snapshot env = inr text ->
  text = [] \/ text = lastData w ->
  poll_tick env w = (inr tt, w) /\
  lastData (poll_tick env w).2 = lastData w /\
  trace (poll_tick env w).2 = trace w.
Proof.
  intros Hs Hsame. by rewrite (poll_tick_same _ _ _ Hs Hsame).
Qed.

(** C3: the retained lines are the last ten lines at most; when a snapshot
    has more than ten lines, a tick that processes it runs the loop over its
    last ten lines only, so that whatever it publishes comes from these, in
    their order, and is all their records when no publish throws. *)
Theorem only_last_ten_lines :
  (forall text,
      exists early,
        split_lines text = early ++ retained_lines text /\
        (length (retained_lines text) <= 10)%nat) /\
  (forall env w text early final,
      snapshot env = inr text ->
      text <> [] -> text <> lastData w ->
      split_lines text = early ++ final ->
      length final = 10%nat ->
      poll_tick env w =
        try_catch (for_each final (publish_line env)) poll_catch
          (mkWorld text (trace w)) /\
      exists evs,
        poll_tick env w = (inr tt, mkWorld text (trace w ++ evs)) /\
        published evs `prefix_of` records final /\
        (publishes_succeed env -> evs = flat_map publish_events (records final))).
Proof.
  split.
  - intros text. unfold retained_lines.
    exists (take (length (split_lines text) - 10) (split_lines text)).
    apply slice_last_suffix.
  - intros env w text early final Hs Hne Hch Hsplit Hlen.
    assert (retained_lines text = final) as Hret.
    { unfold retained_lines. rewrite Hsplit. by apply slice_last_app. }
    split; [by rewrite (poll_tick_changed _ _ _ Hs Hne Hch), Hret|].
    destruct (poll_tick_any _ _ _ Hs Hne Hch) as (evs & Htick & Hp).
    rewrite Hret in Hp. exists evs. split; [done|]. split; [done|].
    intros Hok. rewrite (poll_tick_ok _ _ _ Hs Hne Hch Hok), Hret in Htick.
    injection Htick as Htick. by apply app_inv_head in Htick.
Qed.

(** C6: a tick that detects a change runs the loop in a world where
    [lastData] is already the new snapshot; whatever is thrown from there is
    caught, [lastData] stays the new snapshot, and a next tick with the same
    snapshot does nothing. *)
Theorem snapshot_is_stored_before_processing env w text :
  snapshot env = inr text ->
  text <> [] -> text <> lastData w ->
  poll_tick env w =
    try_catch (for_each (retained_lines text) (publish_line env)) poll_catch
      (mkWorld text (trace w)) /\
  (poll_tick env w).1 = inr tt /\
  lastData (poll_tick env w).2 = text /\
  (forall env',
      snapshot env' = inr text ->
      poll_tick env' (poll_tick env w).2 = (inr tt, (poll_tick env w).2)).
Proof.
  intros Hs Hne Hch. split; [by apply poll_tick_changed|].
  destruct (poll_tick_any _ _ _ Hs Hne Hch) as (evs & -> & _).
  cbn [fst snd lastData]. split; [done|]. split; [done|].
  intros env' Hs'. apply poll_tick_same with (text := text); [done|]. by right.
Qed.


(** ** Line boundaries *)

Lemma split_lines_one s : LF ∉ s -> split_lines s = [s].
Proof.
  induction s as [|c s IH]; [done|].
  intros Hn. apply not_elem_of_cons in Hn as [Hc Hs].
  cbn [split_lines]. assert ((c =? LF) = false) as Hc' by (apply N.eqb_neq; congruence). rewrite Hc'.
  rewrite (IH Hs). destruct s as [|c' s']; [done|].
  apply not_elem_of_cons in Hs as [Hc2 _]. assert ((c' =? LF) = false) as Hc2' by (apply N.eqb_neq; congruence).
  by rewrite Hc2', andb_false_r.
Qed.

Lemma split_lines_at_LF a b :
  LF ∉ a -> last a <> Some CR ->
  split_lines (a ++ LF :: b) = a :: split_lines b.
Proof.
  induction a as [|c a IH]; [done|].
  intros Hn Hlast. apply not_elem_of_cons in Hn as [Hc Ha].
  assert ((c =? LF) = false) as Hc' by (apply N.eqb_neq; congruence).
  change ((c :: a) ++ LF :: b) with (c :: (a ++ LF :: b)).
  cbn [split_lines]. rewrite Hc'.
  destruct a as [|c' a'].
  - cbn [app]. assert ((c =? CR) = false) as ->.
    { apply N.eqb_neq. intros ->. by apply Hlast. }
    done.
  - change ((c' :: a') ++ LF :: b) with (c' :: (a' ++ LF :: b)) in *.
    apply not_elem_of_cons in Ha as Ha'. destruct Ha' as [Hc2 _].
    assert ((c' =? LF) = false) as Hc2' by (apply N.eqb_neq; congruence). rewrite Hc2', andb_false_r.
    rewrite IH; [done | done |]. by rewrite last_cons_cons in Hlast.
Qed.

Lemma split_lines_at_CRLF a b :
  LF ∉ a -> split_lines (a ++ CR :: LF :: b) = a :: split_lines b.
Proof.
  induction a as [|c a IH]; [done|].
  intros Hn. apply not_elem_of_cons in Hn as [Hc Ha].
  assert ((c =? LF) = false) as Hc' by (apply N.eqb_neq; congruence).
  change ((c :: a) ++ CR :: LF :: b) with (c :: (a ++ CR :: LF :: b)).
  cbn [split_lines]. rewrite Hc'.
  destruct a as [|c' a'].
  - cbn [app]. rewrite andb_false_r.
    change (CR :: LF :: b) with ([] ++ CR :: LF :: b). by rewrite IH.
  - change ((c' :: a') ++ CR :: LF :: b) with (c' :: (a' ++ CR :: LF :: b)) in *.
    apply not_elem_of_cons in Ha as Ha'. destruct Ha' as [Hc2 _].
    assert ((c' =? LF) = false) as Hc2' by (apply N.eqb_neq; congruence). rewrite Hc2', andb_false_r.
    by rewrite IH.
Qed.

(** C4, as the script has it: a line feed is a line boundary, and so is a
    carriage return followed by a line feed; a text without a line feed is
    one line, whatever carriage returns it holds. *)
Theorem line_boundaries_are_LF_and_CRLF :
  (forall a b, LF ∉ a -> last a <> Some CR ->
      split_lines (a ++ [LF] ++ b) = a :: split_lines b) /\
  (forall a b, LF ∉ a ->
      split_lines (a ++ [CR; LF] ++ b) = a :: split_lines b) /\
  (forall s, LF ∉ s -> split_lines s = [s]).
Proof.
  split; [|split].
  - intros a b Ha Hl. by apply split_lines_at_LF.
  - intros a b Ha. by apply split_lines_at_CRLF.
  - apply split_lines_one.
Qed.

(** C4, as stated, fails: two lines separated by a lone carriage return are
    not split, and the tick publishes one record for both. *)
Lemma lone_CR_is_not_a_boundary :
  let text := lit "t1 a" ++ [CR] ++ lit "t2 b" in
  split_lines text = [text] /\
  split_lines text <> [lit "t1 a"; lit "t2 b"] /\
  records (retained_lines text) = [mkRecord (lit "t1") (lit "a t2 b")].
Proof. cbv zeta. split; [reflexivity|]. split; [discriminate | reflexivity]. Qed.

(** ** The shape of a record *)

Lemma flush_tokens cur :
  Forall (fun c => is_ws c = false) cur -> Forall is_token (flush cur).
Proof.
  destruct cur as [|c cur]; [constructor|].
  intros H. apply Forall_cons. split; [by split | constructor].
Qed.

Lemma tokens_from_are_tokens cur s :
  Forall (fun c => is_ws c = false) cur -> Forall is_token (tokens_from cur s).
Proof.
  revert cur; induction s as [|c s IH]; intros cur Hcur; simpl.
  - by apply flush_tokens.
  - destruct (is_ws c) eqn:Hc.
    + apply Forall_app. split; [by apply flush_tokens | by apply IH].
    + apply IH. apply Forall_app. split; [done | by repeat constructor].
Qed.

Lemma tokens_are_tokens s : Forall is_token (tokens s).
Proof. by apply tokens_from_are_tokens. Qed.

Lemma join_nonempty sep p ps : p <> [] -> join sep (p :: ps) <> [].
Proof. destruct p; [done|]. destruct ps; done. Qed.

Lemma parse_line_Some line r :
  parse_line line = Some r ->
  exists t p ps,
    tokens line = t :: p :: ps /\ r = mkRecord t (join [SP] (p :: ps)).
Proof.
  rewrite parse_line_tokens. destruct (tokens line) as [|t [|p ps]]; [done..|].
  simpl. intros [= <-]. by exists t, p, ps.
Qed.

Lemma record_shape line r :
  parse_line line = Some r -> is_token (topic r) /\ payload r <> [].
Proof.
  intros (t & p & ps & Ht & ->)%parse_line_Some.
  pose proof (tokens_are_tokens line) as Hall. rewrite Ht in Hall.
  apply Forall_cons in Hall as [Htok Hall].
  apply Forall_cons in Hall as [[Hp _] _].
  split; [done|]. by apply join_nonempty.
Qed.

(** C5, as the script has it: the topic of every record is a token, not
    empty and free of whitespace; its payload is never empty and may hold
    several words; a line of fewer than two tokens yields no record. *)
Theorem record_has_topic_and_payload :
  (forall line r,
      parse_line line = Some r ->
      topic r <> [] /\ Forall (fun c => is_ws c = false) (topic r) /\
      payload r <> []) /\
  parse_line (lit "topic1 hello world") =
    Some (mkRecord (lit "topic1") (lit "hello world")) /\
  (forall line, (length (tokens line) < 2)%nat -> parse_line line = None).
Proof.
  split; [|split].
  - intros line r Hr. destruct (record_shape _ _ Hr) as [[Ht Hws] Hp]. done.
  - reflexivity.
  - intros line Hlen. rewrite parse_line_tokens.
    destruct (tokens line) as [|t [|p ps]]; simpl in *; [done | done | lia].
Qed.

(** C5, as stated, fails: no line yields a record with an empty payload; a
    topic followed by whitespace only yields no record at all. *)
Lemma no_record_has_an_empty_payload :
  parse_line (lit "status ") = None /\
  ~ exists line r, parse_line line = Some r /\ payload r = [].
Proof.
  split; [reflexivity|].
  intros (line & r & Hr & Hp). by destruct (record_shape _ _ Hr) as [_ Hne].
Qed.

(** ** Startup *)

(** C7: without the URL argument the script writes the usage line
    'Usage: node mqtt-bridge_v2.js "<tinkercad-url>" [broker] [port]' to the
    error stream and exits with status 1, and these two are all it does: no
    registry query, no connection to the broker, no browser; with the URL,
    the broker host and port are the arguments that follow, or "localhost"
    and "1883" where they are absent. *)
Theorem startup_arguments argv :
  (argv !! 2%nat = None ->
   startup argv =
     Exit (lit "Usage: node mqtt-bridge_v2.js " ++ [34] ++ lit "<tinkercad-url>"
           ++ [34] ++ lit " [broker] [port]") 1 /\
   forall reg_query,
     script_start argv reg_query =
     [ConsoleError (lit "Usage: node mqtt-bridge_v2.js " ++ [34]
                    ++ lit "<tinkercad-url>" ++ [34] ++ lit " [broker] [port]");
      ProcessExit 1]) /\
  (forall url : jsstring,
      argv !! 2%nat = Some url -> url <> [] ->
      exists cfg,
        startup argv = Run cfg /\ URL cfg = url /\
        (argv !! 3%nat = None -> BROKER cfg = lit "localhost") /\
        (forall host : jsstring, argv !! 3%nat = Some host -> BROKER cfg = host) /\
        (argv !! 4%nat = None -> PORT cfg = lit "1883") /\
        (forall port : jsstring, argv !! 4%nat = Some port -> PORT cfg = port) /\
        (forall reg_query,
            exists logs path,
              script_start argv reg_query =
              ExecSyncRegQuery :: logs
              ++ [MqttConnect (lit "mqtt://" ++ BROKER cfg ++ lit ":" ++ PORT cfg);
                  PuppeteerLaunch path])).
Proof.
  unfold script_start, startup. split.
  - intros ->. split; [done|]. by intros reg_query.
  - intros url -> Hne. destruct url as [|c url]; [done|]. cbn [truthy negb].
    eexists. split; [done|]. cbn [URL BROKER PORT].
    repeat split; try done; try (first [by intros -> | by intros ? ->]).
    intros reg_query. by eexists _, _.
Qed.

(** ** The message handler *)

Lemma after_nil w : after w [] = w.
Proof. destruct w. unfold after. simpl. by rewrite app_nil_r. Qed.

Lemma after_after w evs1 evs2 : after (after w evs1) evs2 = after w (evs1 ++ evs2).
Proof. unfold after. simpl. by rewrite app_assoc. Qed.

Lemma emit_after ev w : emit ev w = (inr tt, after w [ev]).
Proof. reflexivity. Qed.

Lemma call_run failure ev w :
  call failure ev w =
  match failure with
  | Some e => (inl e, w)
  | None => (inr tt, after w [ev])
  end.
Proof. by destruct failure. Qed.

Lemma bind_run {A B} (m : M A) (k : A -> M B) w :
  (m ≫= k) w =
  match m w with
  | (inr a, w') => k a w'
  | (inl e, w') => (inl e, w')
  end.
Proof. reflexivity. Qed.

(** The handler picks the last input. *)
Lemma last_input (inputs : list ElementHandle) :
  (if (0 <? length inputs)%nat then inputs !! (length inputs - 1)%nat else None)
  = last inputs.
Proof.
  rewrite last_lookup. destruct inputs as [|el inputs]; [done|].
  cbn [length]. replace (0 <? S (length inputs))%nat with true by done.
  f_equal. lia.
Qed.

(** The inside of the [try], call by call. *)
Lemma forward_run env msg w :
  forward env msg w =
  match page_frames env with
  | inl e => (inl e, w)
  | inr frames =>
      match editor_frame frames with
      | None => (inr tt, after w [LogNoFrame])
      | Some f =>
          match frame_inputs f with
          | inl e => (inl e, w)
          | inr inputs =>
              match last inputs with
              | None => (inr tt, after w [LogNoInput])
              | Some el =>
                  match click_failure env el, press_failure env Backspace,
                        type_failure env el msg, press_failure env Enter with
                  | Some e, _, _, _ => (inl e, w)
                  | None, Some e, _, _ => (inl e, after w (take 1 (injection el msg)))
                  | None, None, Some e, _ => (inl e, after w (take 2 (injection el msg)))
                  | None, None, None, Some e => (inl e, after w (take 3 (injection el msg)))
                  | None, None, None, None =>
                      (inr tt, after w (injection el msg ++ [LogSent msg]))
                  end
              end
          end
      end
  end.
Proof.
  unfold forward, editor_frame. rewrite bind_run.
  destruct (page_frames env) as [e|frames]; cbn [await throw]; [done|].
  unfold mret at 1, M_ret at 1.
  destruct (find _ frames) as [f|]; [|done].
  rewrite bind_run.
  destruct (frame_inputs f) as [e|inputs]; cbn [await throw]; [done|].
  unfold mret at 1, M_ret at 1. rewrite bind_run.
  rewrite <- last_input.
  destruct (0 <? length inputs)%nat; [|done].
  destruct (inputs !! _) as [el|]; [|done].
  rewrite seq_run, call_run.
  destruct (click_failure env el) as [e|]; [done|].
  rewrite seq_run, call_run.
  destruct (press_failure env Backspace) as [e|]; [done|].
  rewrite seq_run, call_run.
  destruct (type_failure env el msg) as [e|]; [by rewrite after_after|].
  rewrite seq_run, call_run.
  destruct (press_failure env Enter) as [e|]; [by rewrite !after_after|].
  rewrite seq_run, emit_after. unfold mret, M_ret. cbn [negb].
  by rewrite !after_after.
Qed.

(** The ways the inside of the [try] can go: no frame, no input, a whole
    injection, or an exception after [k] of the four inputs. *)
Lemma forward_cases env msg w :
  forward env msg w = (inr tt, after w [LogNoFrame]) \/
  forward env msg w = (inr tt, after w [LogNoInput]) \/
  (exists el,
      forward env msg w = (inr tt, after w (injection el msg ++ [LogSent msg]))) \/
  (exists e el k,
      (k < 4)%nat /\
      forward env msg w = (inl e, after w (take k (injection el msg)))).
Proof.
  rewrite forward_run.
  destruct (page_frames env) as [e|frames].
  { do 3 right. exists e, 0%nat, 0%nat. split; [lia|]. by rewrite after_nil. }
  destruct (editor_frame frames) as [f|]; [|by left].
  destruct (frame_inputs f) as [e|inputs].
  { do 3 right. exists e, 0%nat, 0%nat. split; [lia|]. by rewrite after_nil. }
  destruct (last inputs) as [el|]; [|by right; left].
  destruct (click_failure env el) as [e|].
  { do 3 right. exists e, el, 0%nat. split; [lia|]. by rewrite after_nil. }
  destruct (press_failure env Backspace) as [e|].
  { do 3 right. exists e, el, 1%nat. split; [lia|done]. }
  destruct (type_failure env el msg) as [e|].
  { do 3 right. exists e, el, 2%nat. split; [lia|done]. }
  destruct (press_failure env Enter) as [e|].
  { do 3 right. exists e, el, 3%nat. split; [lia|done]. }
  do 2 right. left. by exists el.
Qed.

Lemma take_injection_prefix k el msg :
  take k (injection el msg) `prefix_of` injection el msg.
Proof. apply prefix_take. Qed.

Lemma take_injection_short k el el' msg :
  (k < 4)%nat -> take k (injection el msg) <> injection el' msg.
Proof.
  intros Hk Heq. apply (f_equal length) in Heq.
  rewrite length_take in Heq. simpl in Heq. lia.
Qed.

Lemma on_message_run toString env topic message w :
  on_message toString env topic message w =
  match forward env (toString message)
          (after w [LogMqtt topic (toString message)]) with
  | (inr _, w1) => (inr tt, w1)
  | (inl e, w1) => (inr tt, after w1 [LogSendError (err_message e)])
  end.
Proof.
  unfold on_message. rewrite seq_run, emit_after. unfold try_catch.
  destruct (forward _ _ _) as [[e|[]] w1]; done.
Qed.

(** C8: the handler never lets an exception out and never touches
    [lastData]; what it does after its first log line is some initial part
    of one injection followed by one last line, which reports either the
    delivery, after a whole injection, or the failure, after less than a
    whole injection; without an editor frame, and without a text input in
    it, nothing is injected and the failure is the only line; an exception
    thrown inside the [try] is caught and reported as the last event. *)
Theorem failed_delivery_is_logged_and_dropped toString env topic message w :
  let msg := toString message in
  let r := on_message toString env topic message w in
  r.1 = inr tt /\ lastData r.2 = lastData w /\
  (exists acts final,
      trace r.2 = trace w ++ LogMqtt topic msg :: acts ++ [final] /\
      (exists el, acts `prefix_of` injection el msg) /\
      ((final = LogSent msg /\ exists el, acts = injection el msg) \/
       (failure_log final /\ forall el, acts <> injection el msg))) /\
  (forall frames,
      page_frames env = inr frames -> editor_frame frames = None ->
      r = (inr tt, after w [LogMqtt topic msg; LogNoFrame])) /\
  (forall frames f,
      page_frames env = inr frames -> editor_frame frames = Some f ->
      frame_inputs f = inr [] ->
      r = (inr tt, after w [LogMqtt topic msg; LogNoInput])) /\
  (forall e w1,
      forward env msg (after w [LogMqtt topic msg]) = (inl e, w1) ->
      r = (inr tt, after w1 [LogSendError (err_message e)])).
Proof.
  intros msg r. subst r. rewrite on_message_run. fold msg.
  assert (forall evs, trace (after (after w [LogMqtt topic msg]) evs)
                      = trace w ++ LogMqtt topic msg :: evs) as Htr.
  { intros evs. unfold after. cbn [trace lastData]. by rewrite <- app_assoc. }
  split; [|split; [|split; [|split; [|split]]]].
  - by destruct (forward _ _ _) as [[e|[]] w1].
  - destruct (forward_cases env msg (after w [LogMqtt topic msg]))
      as [-> | [-> | [(el & ->) | (e & el & k & _ & ->)]]]; done.
  - destruct (forward_cases env msg (after w [LogMqtt topic msg]))
      as [-> | [-> | [(el & ->) | (e & el & k & Hk & ->)]]].
    + exists [], LogNoFrame. split; [cbn [snd]; by rewrite Htr|].
      split; [exists 0%nat; apply prefix_nil|].
      right. split; [by left | done].
    + exists [], LogNoInput. split; [cbn [snd]; by rewrite Htr|].
      split; [exists 0%nat; apply prefix_nil|].
      right. split; [by right; left | done].
    + exists (injection el msg), (LogSent msg).
      split; [cbn [snd]; by rewrite Htr|].
      split; [by exists el|]. left. split; [done | by exists el].
    + exists (take k (injection el msg)), (LogSendError (err_message e)).
      split; [cbn [snd]; by rewrite after_after, Htr|].
      split; [exists el; apply take_injection_prefix|].
      right. split; [right; right; by eexists|].
      intros el'. by apply take_injection_short.
  - intros frames Hf Hnone. rewrite forward_run, Hf, Hnone.
    by rewrite after_after.
  - intros frames f Hf Hsome Hin. rewrite forward_run, Hf, Hsome, Hin.
    cbn [last]. by rewrite after_after.
  - intros e w1 ->. done.
Qed.

(** C9: when the editor frame and a text input exist and no simulated input
    throws, the handler triple-clicks the last input, presses Backspace,
    types the decoded payload there and presses Enter, in this order and
    nothing else; on a surface that reacts as the specification says, these
    inputs leave exactly the payload in that input and submit it, whatever
    the input held before. *)
Theorem injection_replaces_the_content toString env topic message w frames f inputs el :
  let msg := toString message in
  page_frames env = inr frames ->
  editor_frame frames = Some f ->
  frame_inputs f = inr inputs ->
  last inputs = Some el ->
  click_failure env el = None ->
  press_failure env Backspace = None ->
  type_failure env el msg = None ->
  press_failure env Enter = None ->
  on_message toString env topic message w =
    (inr tt, after w [LogMqtt topic msg; Click el 3; Press Backspace;
                      TypeText el msg; Press Enter; LogSent msg]) /\
  (forall d,
      let d' := replay [LogMqtt topic msg; Click el 3; Press Backspace;
                        TypeText el msg; Press Enter; LogSent msg] d in
      content (surfaces d' el) = msg /\
      submitted d' = submitted d ++ [(el, msg)] /\
      (forall el', el' <> el -> surfaces d' el' = surfaces d el')).
Proof.
  intros msg Hf Hframe Hin Hlast Hclick Hback Htype Henter.
  split.
  - rewrite on_message_run, forward_run. fold msg.
    rewrite Hf, Hframe, Hin, Hlast, Hclick, Hback, Htype, Henter.
    by rewrite after_after.
  - intros d d'. subst d'. unfold replay, injection.
    cbn [fold_left app react focused surfaces submitted].
    unfold set_surface. rewrite !decide_True by done.
    cbn [all_selected content Nat.eqb].
    split; [done|]. split; [done|].
    intros el' Hne. by rewrite !decide_False by done.
Qed.

(** ** The claims at concrete inputs *)

(** A blank line, a lone word, a line of three words, and a tick over a
    snapshot of three lines of which one is malformed. *)
Lemma line_records_in_order_witness :
  parse_line (lit "   ") = None /\
  parse_line (lit "badline") = None /\
  parse_line (lit "topic1 hello   world") =
    Some (mkRecord (lit "topic1") (lit "hello world")) /\
  poll_tick (page_showing three_lines) (mkWorld [] []) =
    (inr tt, mkWorld three_lines
       [LogPublish (lit "topic1") (lit "hello world");
        Publish (lit "topic1") (lit "hello world");
        LogPublish (lit "sensor/temperature") (lit "23.5 C");
        Publish (lit "sensor/temperature") (lit "23.5 C")]).
Proof.
  destruct line_records_in_order as (Hblank & Hshort & Hrecord & _ & Htick).
  split; [apply Hblank; reflexivity|].
  split; [apply Hshort; vm_compute; lia|].
  split; [apply (Hrecord _ (lit "topic1") (lit "hello") [lit "world"]); reflexivity|].
  apply (Htick (page_showing three_lines) (mkWorld [] []) three_lines);
    [reflexivity | discriminate | discriminate | intros h t p; reflexivity].
Defined.

(** A tick that sees the snapshot it has stored. *)
Lemma unchanged_snapshot_is_skipped_witness :
  let w := mkWorld three_lines [Publish (lit "topic1") (lit "hello world")] in
  snapshot (page_showing three_lines) = inr three_lines /\
  poll_tick (page_showing three_lines) w = (inr tt, w).
Proof.
  intros w. split; [reflexivity|].
  apply (unchanged_snapshot_is_skipped (page_showing three_lines) w three_lines);
    [reflexivity | right; reflexivity].
Defined.

(** A snapshot of eleven lines: the first line is left out. *)
Lemma only_last_ten_lines_witness :
  length (split_lines eleven_lines) = 11%nat /\
  exists evs,
    poll_tick (page_showing eleven_lines) (mkWorld [] []) =
      (inr tt, mkWorld eleven_lines ([] ++ evs)) /\
    published evs `prefix_of` records (drop 1 (split_lines eleven_lines)) /\
    (publishes_succeed (page_showing eleven_lines) ->
     evs = flat_map publish_events (records (drop 1 (split_lines eleven_lines)))).
Proof.
  split; [reflexivity|].
  destruct only_last_ten_lines as [_ Hten].
  apply (Hten (page_showing eleven_lines) (mkWorld [] []) eleven_lines
           [lit "t0 v0"] (drop 1 (split_lines eleven_lines)));
    [reflexivity | discriminate | discriminate | reflexivity | reflexivity].
Defined.

(** A tick whose first publish throws, and the tick after it. *)
Lemma snapshot_is_stored_before_processing_witness :
  let r := poll_tick (page_showing_offline three_lines) (mkWorld [] []) in
  r.1 = inr tt /\
  lastData r.2 = three_lines /\
  poll_tick (page_showing_offline three_lines) r.2 = (inr tt, r.2).
Proof.
  intros r.
  destruct (snapshot_is_stored_before_processing
              (page_showing_offline three_lines) (mkWorld [] []) three_lines)
    as (_ & Hcaught & Hstored & Hnext);
    [reflexivity | discriminate | discriminate |].
  split; [exact Hcaught|]. split; [exact Hstored|].
  apply Hnext. reflexivity.
Defined.


(** Two lines separated by LF, by CRLF and by a lone CR. *)
Lemma line_boundaries_are_LF_and_CRLF_witness :
  split_lines (lit "t1 a" ++ [LF] ++ lit "t2 b") = lit "t1 a" :: split_lines (lit "t2 b") /\
  split_lines (lit "t1 a" ++ [CR; LF] ++ lit "t2 b") = lit "t1 a" :: split_lines (lit "t2 b") /\
  split_lines (lit "t1 a" ++ [CR] ++ lit "t2 b") = [lit "t1 a" ++ [CR] ++ lit "t2 b"].
Proof.
  destruct line_boundaries_are_LF_and_CRLF as (HLF & HCRLF & Hone).
  split; [apply HLF|split; [apply HCRLF|apply Hone]];
    try discriminate;
    refine (@bool_decide_unpack _ _ _); vm_compute; exact I.
Defined.

(** The record of "sensor/temperature 23.5 C". *)
Lemma record_has_topic_and_payload_witness :
  let r := mkRecord (lit "sensor/temperature") (lit "23.5 C") in
  parse_line (lit "sensor/temperature 23.5 C") = Some r /\
  topic r <> [] /\ Forall (fun c => is_ws c = false) (topic r) /\ payload r <> [].
Proof.
  intros r. split; [reflexivity|].
  destruct record_has_topic_and_payload as (Hshape & _ & _).
  apply (Hshape (lit "sensor/temperature 23.5 C") r). reflexivity.
Defined.

(** The script started without any argument, and with the URL alone. *)
Lemma startup_arguments_witness :
  (startup [lit "node"; lit "mqtt-bridge-v1.js"] =
     Exit (lit "Usage: node mqtt-bridge_v2.js " ++ [34] ++ lit "<tinkercad-url>"
           ++ [34] ++ lit " [broker] [port]") 1 /\
   script_start [lit "node"; lit "mqtt-bridge-v1.js"] (inr reg_output) =
     [ConsoleError (lit "Usage: node mqtt-bridge_v2.js " ++ [34]
                    ++ lit "<tinkercad-url>" ++ [34] ++ lit " [broker] [port]");
      ProcessExit 1]) /\
  exists cfg,
    startup [lit "node"; lit "mqtt-bridge-v1.js"; lit "https://www.tinkercad.com/things/abc"]
      = Run cfg /\
    BROKER cfg = lit "localhost" /\ PORT cfg = lit "1883".
Proof.
  split.
  - destruct (startup_arguments [lit "node"; lit "mqtt-bridge-v1.js"]) as [Hexit _].
    destruct Hexit as [Hstart Hall]; [reflexivity|].
    split; [exact Hstart | apply Hall].
  - destruct (startup_arguments
                [lit "node"; lit "mqtt-bridge-v1.js";
                 lit "https://www.tinkercad.com/things/abc"]) as [_ Hrun].
    destruct (Hrun (lit "https://www.tinkercad.com/things/abc"))
      as (cfg & Hcfg & _ & Hhost & _ & Hport & _);
      [reflexivity | discriminate |].
    exists cfg. split; [exact Hcfg|].
    split; [apply Hhost; reflexivity | apply Hport; reflexivity].
Defined.

(** A message that finds no editor frame, and one whose typing throws. *)
Lemma failed_delivery_is_logged_and_dropped_witness :
  on_message ascii_text plain_page (lit "sensor/command") LED_ON (mkWorld [] []) =
    (inr tt, mkWorld [] [LogMqtt (lit "sensor/command") (lit "LED_ON"); LogNoFrame]) /\
  on_message ascii_text detached_page (lit "sensor/command") LED_ON (mkWorld [] []) =
    (inr tt, mkWorld []
       [LogMqtt (lit "sensor/command") (lit "LED_ON");
        Click 9%nat 3%nat; Press Backspace;
        LogSendError (lit "Node is detached from document")]).
Proof.
  split.
  - destruct (failed_delivery_is_logged_and_dropped ascii_text plain_page
                (lit "sensor/command") LED_ON (mkWorld [] []))
      as (_ & _ & _ & Hnoframe & _).
    apply (Hnoframe [mkFrame (lit "about:blank") (inr [1%nat])]); reflexivity.
  - destruct (failed_delivery_is_logged_and_dropped ascii_text detached_page
                (lit "sensor/command") LED_ON (mkWorld [] []))
      as (_ & _ & _ & _ & _ & Hthrown).
    apply (Hthrown (mkError (lit "Node is detached from document"))
             (mkWorld [] [LogMqtt (lit "sensor/command") (lit "LED_ON");
                          Click 9%nat 3%nat; Press Backspace])).
    reflexivity.
Defined.

(** The message "LED_ON" delivered into an input that held other text. *)
Lemma injection_replaces_the_content_witness :
  let msg := lit "LED_ON" in
  let evs := [LogMqtt (lit "sensor/command") msg; Click 9%nat 3%nat; Press Backspace;
              TypeText 9%nat msg; Press Enter; LogSent msg] in
  on_message ascii_text editor_page (lit "sensor/command") LED_ON (mkWorld [] []) =
    (inr tt, mkWorld [] evs) /\
  content (surfaces used_dom 9%nat) = lit "old text" /\
  content (surfaces (replay evs used_dom) 9%nat) = msg /\
  submitted (replay evs used_dom) = [(9%nat, msg)].
Proof.
  intros msg evs.
  destruct (injection_replaces_the_content ascii_text editor_page
              (lit "sensor/command") LED_ON (mkWorld [] [])
              [mkFrame (lit "https://www.tinkercad.com/things/abc") (inr [1%nat]);
               mkFrame (lit "https://www.tinkercad.com/things/abc/editel?tenant=circuits")
                       (inr [4%nat; 9%nat])]
              (mkFrame (lit "https://www.tinkercad.com/things/abc/editel?tenant=circuits")
                       (inr [4%nat; 9%nat]))
              [4%nat; 9%nat] 9%nat) as [Hrun Hdom]; try reflexivity.
  split; [exact Hrun|]. split; [reflexivity|].
  destruct (Hdom used_dom) as (Hcontent & Hsubmitted & _).
  split; [exact Hcontent | exact Hsubmitted].
Defined.

(** ** More on lines and records *)

Lemma tokens_from_all_ws cur w :
  Forall (fun c => is_ws c = true) w -> w <> [] -> tokens_from cur w = flush cur.
Proof.
  intros Hw. revert cur. induction Hw as [|d w Hd Hw IH]; intros cur Hne; [done|].
  simpl. rewrite Hd. destruct w as [|d' w']; [apply app_nil_r|].
  rewrite IH by done. apply app_nil_r.
Qed.

Lemma tokens_from_ws cur w s :
  Forall (fun c => is_ws c = true) w -> w <> [] ->
  tokens_from cur (w ++ s) = flush cur ++ tokens s.
Proof.
  intros Hw. revert cur. induction Hw as [|d w Hd Hw IH]; intros cur Hne; [done|].
  simpl. rewrite Hd. f_equal. destruct w as [|d' w']; [done|].
  by rewrite IH.
Qed.

Lemma tokens_ws_start w s :
  Forall (fun c => is_ws c = true) w -> tokens (w ++ s) = tokens s.
Proof.
  intros Hw. destruct w as [|d w]; [done|].
  unfold tokens at 1. by rewrite tokens_from_ws.
Qed.

Lemma tokens_from_ws_end cur s w :
  Forall (fun c => is_ws c = true) w -> tokens_from cur (s ++ w) = tokens_from cur s.
Proof.
  intros Hw. revert cur. induction s as [|c s IH]; intros cur.
  - destruct w as [|d w]; [done|]. by apply tokens_from_all_ws.
  - simpl. destruct (is_ws c); by rewrite IH.
Qed.

Lemma tokens_from_app_ws cur a w s :
  Forall (fun c => is_ws c = true) w -> w <> [] ->
  tokens_from cur (a ++ w ++ s) = tokens_from cur (a ++ [SP]) ++ tokens s.
Proof.
  intros Hw Hne. revert cur. induction a as [|c a IH]; intros cur.
  - rewrite !app_nil_l. rewrite tokens_from_ws by done. simpl. by rewrite app_nil_r.
  - simpl. destruct (is_ws c); [|apply IH].
    rewrite IH. by rewrite app_assoc.
Qed.

Lemma tokens_from_token cur t s :
  Forall (fun c => is_ws c = false) t ->
  tokens_from cur (t ++ s) = tokens_from (cur ++ t) s.
Proof.
  intros Ht. revert cur. induction Ht as [|c t Hc Ht IH]; intros cur.
  - by rewrite app_nil_r.
  - simpl. rewrite Hc, IH. by rewrite <- app_assoc.
Qed.

Lemma tokens_join ts : Forall is_token ts -> tokens (join [SP] ts) = ts.
Proof.
  induction 1 as [|t ts [Hne Ht] Hts IH]; [done|].
  unfold tokens in *. destruct ts as [|t' ts'].
  - cbn [join].
    replace (tokens_from [] t) with (tokens_from [] (t ++ [])) by (by rewrite app_nil_r).
    rewrite tokens_from_token by done. simpl. by destruct t.
  - change (join [SP] (t :: t' :: ts')) with (t ++ [SP] ++ join [SP] (t' :: ts')).
    rewrite tokens_from_token by done. cbn [app].
    change (tokens_from t (SP :: join [SP] (t' :: ts')))
      with (flush t ++ tokens_from [] (join [SP] (t' :: ts'))).
    rewrite IH. by destruct t.
Qed.

(** Extra: whitespace only separates.  Any two non-empty runs of whitespace
    at the same place of a line give the same record, and whitespace around
    a line changes nothing. *)
Theorem whitespace_runs_only_separate :
  (forall a w1 w2 b,
      Forall (fun c => is_ws c = true) w1 -> w1 <> [] ->
      Forall (fun c => is_ws c = true) w2 -> w2 <> [] ->
      parse_line (a ++ w1 ++ b) = parse_line (a ++ w2 ++ b)) /\
  (forall w line w',
      Forall (fun c => is_ws c = true) w ->
      Forall (fun c => is_ws c = true) w' ->
      parse_line (w ++ line ++ w') = parse_line line).
Proof.
  split.
  - intros a w1 w2 b H1 Hne1 H2 Hne2. rewrite !parse_line_tokens.
    unfold tokens.
    by rewrite (tokens_from_app_ws _ a w1 b), (tokens_from_app_ws _ a w2 b).
  - intros w line w' Hw Hw'. rewrite !parse_line_tokens.
    rewrite tokens_ws_start by done. unfold tokens.
    by rewrite tokens_from_ws_end.
Qed.

(** Extra: a record written back as "topic payload" parses to itself, and
    its payload holds the tokens of the line after the first, in order. *)
Theorem record_reparses_to_itself line r :
  parse_line line = Some r ->
  parse_line (topic r ++ [SP] ++ payload r) = Some r /\
  tokens (topic r) = [topic r] /\
  tokens (payload r) = drop 1 (tokens line).
Proof.
  intros (t & p & ps & Ht & ->)%parse_line_Some. cbn [topic payload].
  pose proof (tokens_are_tokens line) as Hall. rewrite Ht in Hall.
  split; [|split].
  - rewrite parse_line_tokens.
    change (t ++ [SP] ++ join [SP] (p :: ps)) with (join [SP] (t :: p :: ps)).
    by rewrite tokens_join.
  - apply (tokens_join [t]). apply Forall_cons in Hall as [Htok _].
    apply Forall_cons. split; [done | constructor].
  - rewrite Ht. cbn [drop]. apply tokens_join.
    by apply Forall_cons in Hall as [_ Hall].
Qed.

(** Induction over a list two code units at a time. *)
Lemma list_pair_ind {A} (P : list A -> Prop) :
  P [] -> (forall c, P [c]) ->
  (forall c c' s, P s -> P (c' :: s) -> P (c :: c' :: s)) ->
  forall s, P s.
Proof.
  intros Hnil Hone Hstep s.
  assert (P s /\ forall c, P (c :: s)) as [Hs _]; [|done].
  induction s as [|c' s [IH1 IH2]]; [by split|].
  split; [apply IH2|]. intros c. by apply Hstep.
Qed.

Lemma split_lines_nonnil s : split_lines s <> [].
Proof.
  induction s as [|c'|c c' s IH1 IH2] using list_pair_ind; [done| |].
  - simpl. by destruct (c' =? LF).
  - cbn [split_lines] in *. destruct (c =? LF); [done|].
    destruct ((c =? CR) && (c' =? LF)); [done|].
    destruct (c' =? LF); [done|].
    revert IH2. destruct s as [|c'' s'].
    + done.
    + destruct ((c' =? CR) && (c'' =? LF)); [done|].
      by destruct (push_front c' _).
Qed.

Lemma split_lines_cons c s :
  split_lines (c :: s) =
  if c =? LF then [] :: split_lines s
  else match s with
       | c' :: s' =>
           if (c =? CR) && (c' =? LF) then [] :: split_lines s'
           else push_front c (split_lines s)
       | [] => push_front c (split_lines s)
       end.
Proof. reflexivity. Qed.

Lemma push_front_cons c l :
  l <> [] -> exists p ps, l = p :: ps /\ push_front c l = (c :: p) :: ps.
Proof. destruct l as [|p ps]; [done|]. intros _. by exists p, ps. Qed.

Lemma count_LF_cons c s :
  count_LF (c :: s) = if c =? LF then S (count_LF s) else count_LF s.
Proof. unfold count_LF. simpl. by destruct (c =? LF). Qed.

Lemma length_push_front c l : l <> [] -> length (push_front c l) = length l.
Proof. by destruct l. Qed.

Lemma length_split_lines s : length (split_lines s) = S (count_LF s).
Proof.
  induction s as [|c|c c' s IH IH'] using list_pair_ind; [done| |].
  - rewrite split_lines_cons, count_LF_cons. by destruct (c =? LF).
  - rewrite split_lines_cons, count_LF_cons.
    destruct (c =? LF); [cbn [length]; by rewrite IH'|].
    destruct ((c =? CR) && (c' =? LF)) eqn:Hcr.
    + apply andb_true_iff in Hcr as [_ Hc']. rewrite count_LF_cons, Hc'.
      cbn [length]. by rewrite IH.
    + rewrite length_push_front by apply split_lines_nonnil. done.
Qed.

(** Extra: a text of [n] line feeds has [n + 1] lines, and no line holds a
    line feed. *)
Theorem lines_are_one_more_than_line_feeds s :
  length (split_lines s) = S (count_LF s) /\
  Forall (fun line => LF ∉ line) (split_lines s).
Proof.
  split; [apply length_split_lines|].
  induction s as [|c|c c' s IH IH'] using list_pair_ind.
  - repeat constructor. apply not_elem_of_nil.
  - rewrite split_lines_cons.
    destruct (c =? LF) eqn:Hc; simpl.
    + repeat constructor; apply not_elem_of_nil.
    + repeat constructor.
      apply N.eqb_neq in Hc. rewrite list_elem_of_singleton. congruence.
  - rewrite split_lines_cons.
    destruct (c =? LF) eqn:Hc.
    + constructor; [apply not_elem_of_nil | done].
    + destruct ((c =? CR) && (c' =? LF)).
      * constructor; [apply not_elem_of_nil | done].
      * destruct (push_front_cons c (split_lines (c' :: s)))
          as (p & ps & Hl & ->); [apply split_lines_nonnil|].
        rewrite Hl in IH'. apply Forall_cons in IH' as [Hp Hps].
        constructor; [|done].
        apply N.eqb_neq in Hc. rewrite elem_of_cons. intros [Heq|Hin]; [|done].
        by apply Hc.
Qed.

Lemma join_push_front sep c l :
  l <> [] -> join sep (push_front c l) = c :: join sep l.
Proof. destruct l as [|p [|q ps]]; done. Qed.

Lemma join_cons_cons sep x y l :
  join sep (x :: y :: l) = x ++ sep ++ join sep (y :: l).
Proof. reflexivity. Qed.

(** Extra: on a text without carriage return, joining the lines with line
    feeds gives the text back. *)
Theorem joining_the_lines_gives_the_text s :
  CR ∉ s -> join [LF] (split_lines s) = s.
Proof.
  induction s as [|c s IH]; [done|].
  intros Hn. apply not_elem_of_cons in Hn as [Hc Hs].
  assert ((c =? CR) = false) as Hc' by (apply N.eqb_neq; congruence).
  specialize (IH Hs). pose proof (split_lines_nonnil s) as Hne.
  rewrite split_lines_cons, Hc'. cbn [andb].
  destruct (c =? LF) eqn:HLF.
  - apply N.eqb_eq in HLF as ->.
    destruct (split_lines s) as [|p ps]; [done|].
    rewrite join_cons_cons. by rewrite IH.
  - assert (join [LF] (push_front c (split_lines s)) = c :: s) as Hgoal.
    { rewrite join_push_front by done. by rewrite IH. }
    by destruct s.
Qed.

Lemma split_lines_join_LF l ls :
  Forall (fun line => LF ∉ line) (l :: ls) ->
  Forall (fun line => last line <> Some CR) (l :: ls) ->
  split_lines (join [LF] (l :: ls)) = l :: ls.
Proof.
  revert l; induction ls as [|l' ls IH]; intros l Hlf Hcr.
  - apply Forall_cons in Hlf as [Hl _]. by apply split_lines_one.
  - apply Forall_cons in Hlf as [Hl Hls]. apply Forall_cons in Hcr as [Hc Hcs].
    rewrite join_cons_cons. cbn [app].
    rewrite split_lines_at_LF by done. by rewrite IH.
Qed.

Lemma split_lines_join_CRLF l ls :
  Forall (fun line => LF ∉ line) (l :: ls) ->
  split_lines (join [CR; LF] (l :: ls)) = l :: ls.
Proof.
  revert l; induction ls as [|l' ls IH]; intros l Hlf.
  - apply Forall_cons in Hlf as [Hl _]. by apply split_lines_one.
  - apply Forall_cons in Hlf as [Hl Hls].
    rewrite join_cons_cons. cbn [app].
    rewrite split_lines_at_CRLF by done. by rewrite IH.
Qed.

(** Extra: lines that hold no line feed are found again after they are
    joined, by line feeds when no line ends with a carriage return, and by
    carriage return and line feed in any case. *)
Theorem splitting_finds_the_joined_lines lines :
  lines <> [] ->
  Forall (fun line => LF ∉ line) lines ->
  (Forall (fun line => last line <> Some CR) lines ->
   split_lines (join [LF] lines) = lines) /\
  split_lines (join [CR; LF] lines) = lines.
Proof.
  intros Hne Hall. destruct lines as [|l ls]; [done|]. split.
  - intros Hcr. by apply split_lines_join_LF.
  - by apply split_lines_join_CRLF.
Qed.

(** A text that ends with a line feed ends with an empty line. *)
Lemma split_lines_trailing_LF s :
  exists front, front <> [] /\ split_lines (s ++ [LF]) = front ++ [[]].
Proof.
  induction s as [|c|c c' s IH IH'] using list_pair_ind.
  - by exists [[]].
  - cbn [app]. rewrite split_lines_cons.
    destruct (c =? LF); [by exists [[]; []]|].
    change (LF =? LF) with true. rewrite andb_true_r.
    destruct (c =? CR); [by exists [[]]|]. by exists [[c]].
  - change ((c :: c' :: s) ++ [LF]) with (c :: c' :: (s ++ [LF])).
    change ((c' :: s) ++ [LF]) with (c' :: (s ++ [LF])) in IH'.
    rewrite split_lines_cons.
    destruct IH as (front & Hf & IH). destruct IH' as (front' & Hf' & IH').
    destruct (c =? LF).
    { exists ([] :: front'). split; [done|]. by rewrite IH'. }
    destruct ((c =? CR) && (c' =? LF)).
    { exists ([] :: front). split; [done|]. by rewrite IH. }
    rewrite IH'. destruct front' as [|p ps]; [done|].
    by exists ((c :: p) :: ps).
Qed.

Lemma slice_last_snoc {A} n (l : list A) x :
  slice_last (S n) (l ++ [x]) = slice_last n l ++ [x].
Proof.
  unfold slice_last. rewrite length_app. cbn [length].
  replace (length l + 1 - S n)%nat with (length l - n)%nat by lia.
  apply drop_app_le. lia.
Qed.

Lemma length_records lines : (length (records lines) <= length lines)%nat.
Proof.
  unfold records. induction lines as [|l ls IH]; [done|].
  cbn [omap list_omap length]. destruct (parse_line l); cbn [length]; lia.
Qed.

Lemma length_slice_last {A} n (l : list A) : (length (slice_last n l) <= n)%nat.
Proof. unfold slice_last. rewrite length_drop. lia. Qed.

Lemma records_snoc_blank lines : records (lines ++ [[]]) = records lines.
Proof. unfold records. rewrite omap_app. simpl. apply app_nil_r. Qed.

(** ** More on the poll tick *)

Lemma poll_tick_error env w e :
  snapshot env = inl e ->
  poll_tick env w = (inr tt, after w [LogPollError (err_message e)]).
Proof.
  intros Hs. unfold poll_tick, try_catch, page_evaluate.
  rewrite bind_run, Hs. done.
Qed.

(** The three ways a tick can go. *)
Lemma poll_tick_cases env w :
  (exists e,
      snapshot env = inl e /\
      poll_tick env w = (inr tt, after w [LogPollError (err_message e)])) \/
  (exists text,
      snapshot env = inr text /\ (text = [] \/ text = lastData w) /\
      poll_tick env w = (inr tt, w)) \/
  (exists text evs,
      snapshot env = inr text /\ text <> [] /\ text <> lastData w /\
      poll_tick env w = (inr tt, mkWorld text (trace w ++ evs)) /\
      published evs `prefix_of` records (retained_lines text)).
Proof.
  destruct (snapshot env) as [e|text] eqn:Hs.
  - left. exists e. split; [done|]. by apply poll_tick_error.
  - right. destruct (decide (text = [])) as [Hnil|Hne].
    { left. exists text. split; [done|]. split; [by left|].
      apply poll_tick_same with (text := text); [done | by left]. }
    destruct (decide (text = lastData w)) as [Hsame|Hch].
    { left. exists text. split; [done|]. split; [by right|].
      apply poll_tick_same with (text := text); [done | by right]. }
    right. destruct (poll_tick_any _ _ _ Hs Hne Hch) as (evs & Htick & Hp).
    by exists text, evs.
Qed.

(** Whatever a tick publishes belongs to the records of the retained lines
    of its snapshot. *)
Lemma poll_tick_published env w :
  exists evs,
    (poll_tick env w).1 = inr tt /\
    trace (poll_tick env w).2 = trace w ++ evs /\
    (lastData (poll_tick env w).2 = lastData w \/
     snapshot env = inr (lastData (poll_tick env w).2)) /\
    (published evs = [] \/
     exists text, snapshot env = inr text /\
                  published evs `prefix_of` records (retained_lines text)).
Proof.
  destruct (poll_tick_cases env w)
    as [(e & Hs & ->) | [(text & Hs & Hsame & ->) | (text & evs & Hs & _ & _ & -> & Hp)]].
  - exists [LogPollError (err_message e)]. repeat split; try done; by left.
  - exists []. cbn [fst snd]. rewrite app_nil_r. repeat split; try done; by left.
  - exists evs. cbn [fst snd trace lastData]. repeat split; try done.
    + by right.
    + right. by exists text.
Qed.

(** Extra: a tick never lets an exception out, only adds to the history,
    and leaves in [lastData] either what was there or the snapshot it has
    just read. *)
Theorem tick_catches_everything env w :
  (poll_tick env w).1 = inr tt /\
  trace w `prefix_of` trace (poll_tick env w).2 /\
  (lastData (poll_tick env w).2 = lastData w \/
   snapshot env = inr (lastData (poll_tick env w).2)).
Proof.
  destruct (poll_tick_published env w) as (evs & Hr & Ht & Hl & _).
  split; [done|]. split; [|done]. rewrite Ht. by apply prefix_app_r.
Qed.

(** Extra: when the text of the page cannot be read, the tick writes one
    poll error line with the message of the error, publishes nothing and
    keeps [lastData]; when the document has no body, the tick does nothing
    at all. *)
Theorem unreadable_page_is_skipped env w :
  (forall e,
      body_innerText env = inl e ->
      poll_tick env w = (inr tt, after w [LogPollError (err_message e)])) /\
  (body_innerText env = inr None -> poll_tick env w = (inr tt, w)).
Proof.
  split.
  - intros e He. apply poll_tick_error. unfold snapshot. by rewrite He.
  - intros Hb. apply poll_tick_same with (text := []); [|by left].
    unfold snapshot. by rewrite Hb.
Qed.

(** Extra: a tick publishes ten records at most, and every record it
    publishes has a topic that is not empty and holds no whitespace, and a
    payload that is not empty. *)
Theorem tick_publishes_at_most_ten_records env w :
  exists evs,
    trace (poll_tick env w).2 = trace w ++ evs /\
    (length (published evs) <= 10)%nat /\
    (forall r, r ∈ published evs ->
       topic r <> [] /\ Forall (fun c => is_ws c = false) (topic r) /\
       payload r <> []).
Proof.
  destruct (poll_tick_published env w) as (evs & _ & Ht & _ & Hp).
  exists evs. split; [done|].
  destruct Hp as [-> | (text & _ & Hp)].
  { split; [simpl; lia|]. intros r Hr. by apply elem_of_nil in Hr. }
  split.
  - apply prefix_length in Hp.
    pose proof (length_records (retained_lines text)).
    pose proof (length_slice_last 10 (split_lines text)).
    unfold retained_lines in *. lia.
  - intros r Hr. destruct Hp as [k Hk].
    assert (r ∈ records (retained_lines text)) as Hin.
    { rewrite Hk. apply elem_of_app. by left. }
    apply list_elem_of_omap in Hin as (line & _ & Hline).
    destruct (record_shape _ _ Hline) as [[Hne Hws] Hpl]. done.
Qed.

(** Extra: when the snapshot ends with a line feed, the last retained line
    is the empty line after it, and the tick publishes nine records at
    most. *)
Theorem trailing_line_feed_takes_a_slot env w s :
  snapshot env = inr (s ++ [LF]) ->
  last (retained_lines (s ++ [LF])) = Some [] /\
  exists evs,
    trace (poll_tick env w).2 = trace w ++ evs /\
    (length (published evs) <= 9)%nat.
Proof.
  intros Hs.
  destruct (split_lines_trailing_LF s) as (front & Hfront & Hsplit).
  assert (retained_lines (s ++ [LF]) = slice_last 9 front ++ [[]]) as Hret.
  { unfold retained_lines. rewrite Hsplit. apply slice_last_snoc. }
  split; [rewrite Hret; apply last_snoc|].
  destruct (poll_tick_published env w) as (evs & _ & Ht & _ & Hp).
  exists evs. split; [done|].
  destruct Hp as [-> | (text & Hs' & Hp)]; [simpl; lia|].
  rewrite Hs in Hs'. injection Hs' as <-.
  rewrite Hret, records_snoc_blank in Hp. apply prefix_length in Hp.
  eapply Nat.le_trans; [exact Hp|].
  eapply Nat.le_trans; [apply length_records|]. apply length_slice_last.
Qed.

(** ** Successive ticks *)

Lemma run_ticks_same envs w text :
  Forall (fun env => snapshot env = inr text) envs ->
  text = [] \/ text = lastData w ->
  run_ticks envs w = w.
Proof.
  induction 1 as [|env envs Hs _ IH]; intros Hsame; [done|].
  cbn [run_ticks]. rewrite (poll_tick_same _ _ _ Hs Hsame). by apply IH.
Qed.

(** Extra: while the page shows the same text, the ticks publish the records
    of its retained lines once at most, in their order, however many ticks
    there are; they publish all of them when the text is new to the first
    tick and its publishes succeed. *)
Theorem static_page_is_published_once envs w text :
  Forall (fun env => snapshot env = inr text) envs ->
  exists evs,
    trace (run_ticks envs w) = trace w ++ evs /\
    published evs `prefix_of` records (retained_lines text) /\
    (forall env envs',
        envs = env :: envs' -> text <> [] -> text <> lastData w ->
        publishes_succeed env ->
        published evs = records (retained_lines text)).
Proof.
  intros Hall. destruct Hall as [|env envs Hs Hrest].
  { exists []. rewrite app_nil_r. split; [done|]. split; [apply prefix_nil | done]. }
  cbn [run_ticks].
  destruct (decide (text = [] \/ text = lastData w)) as [Hsame|Hch].
  - rewrite (poll_tick_same _ _ _ Hs Hsame). cbn [snd].
    rewrite (run_ticks_same _ _ _ Hrest Hsame).
    exists []. rewrite app_nil_r. split; [done|]. split; [apply prefix_nil|].
    intros env0 envs0 _ Hne Hneq. destruct Hsame; done.
  - assert (text <> []) as Hne by (intros ->; apply Hch; by left).
    assert (text <> lastData w) as Hneq by (intros ->; apply Hch; by right).
    destruct (poll_tick_any _ _ _ Hs Hne Hneq) as (evs & Htick & Hp).
    rewrite Htick. cbn [snd].
    rewrite (run_ticks_same _ _ text Hrest) by (by right).
    exists evs. split; [done|]. split; [done|].
    intros env0 envs0 [= <- <-] _ _ Hok.
    rewrite (poll_tick_ok _ _ _ Hs Hne Hneq Hok) in Htick.
    injection Htick as Htick. apply app_inv_head in Htick as <-.
    apply published_flat_map.
Qed.

(** When the publishes succeed, what a tick adds and what it stores depend
    on the world through [lastData] alone. *)
Lemma poll_tick_reads_lastData env w1 w2 :
  publishes_succeed env ->
  lastData w1 = lastData w2 ->
  exists ld evs,
    poll_tick env w1 = (inr tt, mkWorld ld (trace w1 ++ evs)) /\
    poll_tick env w2 = (inr tt, mkWorld ld (trace w2 ++ evs)).
Proof.
  intros Hok Hld. destruct (snapshot env) as [e|text] eqn:Hs.
  - exists (lastData w1), [LogPollError (err_message e)].
    rewrite !(poll_tick_error _ _ _ Hs). unfold after. by rewrite Hld.
  - destruct (decide (text = [] \/ text = lastData w1)) as [Hsame|Hch].
    + exists (lastData w1), []. rewrite !app_nil_r.
      assert (text = [] \/ text = lastData w2) as Hsame2 by (by rewrite <- Hld).
      rewrite (poll_tick_same _ w1 _ Hs Hsame), (poll_tick_same _ w2 _ Hs Hsame2).
      destruct w1, w2. cbn [lastData trace] in *. by subst.
    + assert (text <> []) as Hne by (intros ->; apply Hch; by left).
      assert (text <> lastData w1) as Hneq by (intros ->; apply Hch; by right).
      exists text, (flat_map publish_events (records (retained_lines text))).
      assert (text <> lastData w2) as Hneq2 by (by rewrite <- Hld).
      by rewrite (poll_tick_ok _ w1 _ Hs Hne Hneq Hok),
                 (poll_tick_ok _ w2 _ Hs Hne Hneq2 Hok).
Qed.

(** ** More on the message handler *)

(** What the inside of the [try] adds does not depend on the world. *)
Lemma forward_shape env msg :
  exists res evs, forall w, forward env msg w = (res, after w evs).
Proof.
  destruct (page_frames env) as [e|frames] eqn:Hf.
  { exists (inl e), []. intros w. by rewrite forward_run, Hf, after_nil. }
  destruct (editor_frame frames) as [f|] eqn:Hframe.
  2:{ exists (inr tt), [LogNoFrame]. intros w. by rewrite forward_run, Hf, Hframe. }
  destruct (frame_inputs f) as [e|inputs] eqn:Hin.
  { exists (inl e), []. intros w. by rewrite forward_run, Hf, Hframe, Hin, after_nil. }
  destruct (last inputs) as [el|] eqn:Hlast.
  2:{ exists (inr tt), [LogNoInput]. intros w.
      by rewrite forward_run, Hf, Hframe, Hin, Hlast. }
  destruct (click_failure env el) as [e|] eqn:Hclick.
  { exists (inl e), []. intros w.
    by rewrite forward_run, Hf, Hframe, Hin, Hlast, Hclick, after_nil. }
  destruct (press_failure env Backspace) as [e|] eqn:Hback.
  { exists (inl e), (take 1 (injection el msg)). intros w.
    by rewrite forward_run, Hf, Hframe, Hin, Hlast, Hclick, Hback. }
  destruct (type_failure env el msg) as [e|] eqn:Htype.
  { exists (inl e), (take 2 (injection el msg)). intros w.
    by rewrite forward_run, Hf, Hframe, Hin, Hlast, Hclick, Hback, Htype. }
  destruct (press_failure env Enter) as [e|] eqn:Henter.
  { exists (inl e), (take 3 (injection el msg)). intros w.
    by rewrite forward_run, Hf, Hframe, Hin, Hlast, Hclick, Hback, Htype, Henter. }
  exists (inr tt), (injection el msg ++ [LogSent msg]). intros w.
  by rewrite forward_run, Hf, Hframe, Hin, Hlast, Hclick, Hback, Htype, Henter.
Qed.

Lemma on_message_shape toString env topic message :
  exists evs,
    forall w,
      on_message toString env topic message w =
      (inr tt, after w (LogMqtt topic (toString message) :: evs)).
Proof.
  destruct (forward_shape env (toString message)) as (res & evs & Hfw).
  destruct res as [e|[]].
  - exists (evs ++ [LogSendError (err_message e)]). intros w.
    rewrite on_message_run, Hfw. by rewrite !after_after.
  - exists evs. intros w. rewrite on_message_run, Hfw. by rewrite after_after.
Qed.

(** Extra: handling a message leaves the next tick as it would have been:
    when its publishes succeed, the tick stores and adds the same after the
    message as without it. *)
Theorem delivery_does_not_disturb_publishing toString penv topic message env w :
  publishes_succeed env ->
  let w' := (on_message toString penv topic message w).2 in
  exists ld evs,
    poll_tick env w = (inr tt, mkWorld ld (trace w ++ evs)) /\
    poll_tick env w' = (inr tt, mkWorld ld (trace w' ++ evs)).
Proof.
  intros Hok w'. apply poll_tick_reads_lastData; [done|].
  subst w'. destruct (on_message_shape toString penv topic message) as (evs & ->).
  done.
Qed.

Ltac list_cases H :=
  repeat (apply elem_of_cons in H as [-> | H]);
  try (by apply elem_of_nil in H).

(** The simulated inputs of the inside of the [try] go to the last input of
    the editor frame, after a click that went through. *)
Lemma forward_inputs env msg w res w1 :
  forward env msg w = (res, w1) ->
  exists evs,
    w1 = after w evs /\
    (forall ev, ev ∈ evs -> is_input ev = true ->
       exists frames f inputs el,
         page_frames env = inr frames /\ editor_frame frames = Some f /\
         frame_inputs f = inr inputs /\ last inputs = Some el /\
         click_failure env el = None /\
         (forall el', input_target ev = Some el' -> el' = el)).
Proof.
  rewrite forward_run.
  destruct (page_frames env) as [e|frames] eqn:Hf.
  { intros [= <- <-]. exists []. split; [by rewrite after_nil|].
    intros ev Hin. by apply elem_of_nil in Hin. }
  destruct (editor_frame frames) as [f|] eqn:Hframe.
  2:{ intros [= <- <-]. exists [LogNoFrame]. split; [done|].
      intros ev Hin Hinput. list_cases Hin. done. }
  destruct (frame_inputs f) as [e|inputs] eqn:Hin.
  { intros [= <- <-]. exists []. split; [by rewrite after_nil|].
    intros ev Hev. by apply elem_of_nil in Hev. }
  destruct (last inputs) as [el|] eqn:Hlast.
  2:{ intros [= <- <-]. exists [LogNoInput]. split; [done|].
      intros ev Hev Hinput. list_cases Hev. done. }
  destruct (click_failure env el) as [e|] eqn:Hclick.
  { intros [= <- <-]. exists []. split; [by rewrite after_nil|].
    intros ev Hev. by apply elem_of_nil in Hev. }
  assert (forall ev, ev ∈ injection el msg ++ [LogSent msg] -> is_input ev = true ->
            exists frames0 f0 inputs0 el0,
              (inr frames : Error + list Frame) = inr frames0 /\
              editor_frame frames0 = Some f0 /\
              frame_inputs f0 = inr inputs0 /\ last inputs0 = Some el0 /\
              click_failure env el0 = None /\
              (forall el', input_target ev = Some el' -> el' = el0)) as Hall.
  { intros ev Hev Hinput. exists frames, f, inputs, el.
    repeat split; try done.
    intros el' Htarget. unfold injection in Hev. cbn [app] in Hev.
    list_cases Hev; cbn [input_target] in Htarget; congruence. }
  assert (forall k ev, ev ∈ take k (injection el msg) ->
            ev ∈ injection el msg ++ [LogSent msg]) as Htake.
  { intros k ev Hev. apply elem_of_app. left.
    destruct (take_injection_prefix k el msg) as [rest ->].
    apply elem_of_app. by left. }
  destruct (press_failure env Backspace) as [e|].
  { intros [= <- <-]. eexists. split; [done|]. intros ev Hev. apply Hall.
    by apply (Htake 1%nat). }
  destruct (type_failure env el msg) as [e|].
  { intros [= <- <-]. eexists. split; [done|]. intros ev Hev. apply Hall.
    by apply (Htake 2%nat). }
  destruct (press_failure env Enter) as [e|].
  { intros [= <- <-]. eexists. split; [done|]. intros ev Hev. apply Hall.
    by apply (Htake 3%nat). }
  intros [= <- <-]. eexists. split; [done|]. apply Hall.
Qed.

(** Extra: every click, key press and typing of the handler follows a click
    that went through on the last text input of the first frame whose
    address holds "/editel"; clicks and typing go to that input and to no
    other element. *)
Theorem inputs_go_to_the_last_input_of_the_editor_frame
    toString env topic message w evs ev :
  trace (on_message toString env topic message w).2 = trace w ++ evs ->
  ev ∈ evs -> is_input ev = true ->
  exists frames f inputs el,
    page_frames env = inr frames /\ editor_frame frames = Some f /\
    frame_inputs f = inr inputs /\ last inputs = Some el /\
    click_failure env el = None /\
    (forall el', input_target ev = Some el' -> el' = el).
Proof.
  rewrite on_message_run.
  destruct (forward _ _ _) as [res w1] eqn:Hfw.
  apply forward_inputs in Hfw as (evs0 & -> & Hall).
  intros Htrace Hev Hinput. apply (Hall ev); [|done].
  destruct res as [e|[]]; cbn [snd] in Htrace; rewrite ?after_after in Htrace;
    unfold after in Htrace; cbn [trace] in Htrace;
    apply app_inv_head in Htrace as <-.
  - cbn [app] in Hev. apply elem_of_cons in Hev as [-> | Hev]; [done|].
    apply elem_of_app in Hev as [Hev | Hev]; [done|]. list_cases Hev. done.
  - cbn [app] in Hev. by apply elem_of_cons in Hev as [-> | Hev].
Qed.

(** ** The editor frame *)

Lemma starts_with_iff sub s : starts_with sub s = true <-> exists b, s = sub ++ b.
Proof.
  revert s; induction sub as [|c sub IH]; intros s.
  - split; [intros _; by exists s | done].
  - destruct s as [|d s]; simpl.
    + split; [done | by intros [b Hb]].
    + rewrite andb_true_iff, N.eqb_eq, IH. split.
      * intros [-> [b ->]]. by exists b.
      * intros [b [= -> ->]]. split; [done | by exists b].
Qed.

Lemma includes_iff s sub : includes s sub = true <-> contains s sub.
Proof.
  unfold contains. induction s as [|c s IH].
  - cbn [includes]. rewrite orb_false_r, starts_with_iff. split.
    + intros [b Hb]. by exists [], b.
    + intros (a & b & Hab). symmetry in Hab.
      apply app_eq_nil in Hab as [-> Hab]. apply app_eq_nil in Hab as [-> ->].
      by exists [].
  - cbn [includes]. rewrite orb_true_iff, starts_with_iff, IH. split.
    + intros [[b Hb] | (a & b & ->)]; [by exists [], b | by exists (c :: a), b].
    + intros (a & b & Hab). destruct a as [|c' a].
      * left. by exists b.
      * right. injection Hab as -> ->. by exists a, b.
Qed.

(** Extra: the frame the handler forwards to is the first frame whose
    address holds "/editel" somewhere; there is none exactly when no frame
    has such an address. *)
Theorem editor_frame_is_the_first_editel_frame frames :
  match editor_frame frames with
  | Some f =>
      exists pre post,
        frames = pre ++ f :: post /\
        contains (frame_url f) (lit "/editel") /\
        Forall (fun g => ~ contains (frame_url g) (lit "/editel")) pre
  | None =>
      Forall (fun g => ~ contains (frame_url g) (lit "/editel")) frames
  end.
Proof.
  unfold editor_frame. induction frames as [|g frames IH]; [constructor|].
  cbn [find]. destruct (includes (frame_url g) (lit "/editel")) eqn:Hg.
  - exists [], frames. split; [done|]. split; [by apply includes_iff | constructor].
  - assert (~ contains (frame_url g) (lit "/editel")) as Hng.
    { rewrite <- includes_iff. by rewrite Hg. }
    destruct (find _ frames) as [f|].
    + destruct IH as (pre & post & -> & Hf & Hpre).
      exists (g :: pre), post. split; [done|]. split; [done|]. by constructor.
    + by constructor.
Qed.

(** ** More on startup *)

(** Extra: the script stops at startup exactly when the URL argument is
    missing or empty, and then with the usage line and status 1; otherwise
    it runs with that URL, which is not empty. *)
Theorem startup_exits_iff_no_url argv :
  (startup argv = Exit usage 1 <->
   argv !! 2%nat = None \/ argv !! 2%nat = Some []) /\
  (forall stderr status, startup argv = Exit stderr status ->
     stderr = usage /\ status = 1%Z) /\
  (forall cfg, startup argv = Run cfg ->
     argv !! 2%nat = Some (URL cfg) /\ URL cfg <> []).
Proof.
  unfold startup. destruct (argv !! 2%nat) as [[|c url]|]; cbn [truthy negb].
  - split; [split; [by right | done]|]. split; [by intros ? ? [= <- <-] | done].
  - split; [split; [done | by intros [|]]|]. split; [done|].
    by intros cfg [= <-].
  - split; [split; [by left | done]|]. split; [by intros ? ? [= <- <-] | done].
Qed.

(** Extra: the address of the broker is "mqtt://", the host, ":" and the
    port, where host and port are the arguments at positions 3 and 4 as they
    are, even empty, and "localhost" and "1883" where they are missing; with
    the URL alone the address is "mqtt://localhost:1883". *)
Theorem broker_address_of_arguments :
  (forall argv cfg,
      startup argv = Run cfg ->
      broker_address cfg =
      lit "mqtt://" ++ default (lit "localhost") (argv !! 3%nat) ++ lit ":"
      ++ default (lit "1883") (argv !! 4%nat)) /\
  (forall node script url : jsstring,
      url <> [] ->
      exists cfg,
        startup [node; script; url] = Run cfg /\
        broker_address cfg = lit "mqtt://localhost:1883").
Proof.
  split.
  - intros argv cfg. unfold startup.
    destruct (argv !! 2%nat) as [url|]; [|done].
    destruct (negb (truthy url)); [done|]. by intros [= <-].
  - intros node script url Hne. destruct url as [|c url]; [done|].
    eexists. split; reflexivity.
Qed.

(** ** Chrome detection *)

Lemma starts_with_app_long sub u v :
  (length sub <= length u)%nat -> starts_with sub (u ++ v) = starts_with sub u.
Proof.
  revert u; induction sub as [|c sub IH]; intros u Hlen; [by destruct u|].
  destruct u as [|d u]; [simpl in Hlen; lia|].
  cbn [app starts_with]. rewrite IH; [done|]. simpl in Hlen. lia.
Qed.

Lemma match_REG_SZ_cons c out :
  match_REG_SZ (c :: out) =
  match (if starts_with REG_SZ (c :: out)
         then capture_value (drop (length REG_SZ) (c :: out)) else None) with
  | Some group => Some group
  | None => match_REG_SZ out
  end.
Proof. reflexivity. Qed.

Lemma match_REG_SZ_at rest :
  match_REG_SZ (REG_SZ ++ rest) =
  match capture_value rest with
  | Some group => Some group
  | None => match_REG_SZ (drop 1 (REG_SZ ++ rest))
  end.
Proof.
  assert (starts_with REG_SZ (REG_SZ ++ rest) = true) as Hs.
  { apply starts_with_iff. by exists rest. }
  assert (drop (length REG_SZ) (REG_SZ ++ rest) = rest) as Hd
    by apply drop_app_length.
  destruct (REG_SZ ++ rest) as [|c out] eqn:Heq; [done|].
  by rewrite match_REG_SZ_cons, Hs, Hd.
Qed.

(** A match starts where "REG_SZ" stands before whitespace. *)
Lemma match_REG_SZ_Some out group :
  match_REG_SZ out = Some group ->
  exists a rest, out = a ++ REG_SZ ++ rest /\ capture_value rest = Some group.
Proof.
  induction out as [|c out IH]; [done|].
  rewrite match_REG_SZ_cons.
  destruct (starts_with REG_SZ (c :: out)) eqn:Hs.
  - apply starts_with_iff in Hs as [rest Hrest]. rewrite Hrest.
    rewrite drop_app_length.
    destruct (capture_value rest) as [g|] eqn:Hc.
    + intros [= <-]. by exists [], rest.
    + rewrite <- Hrest. intros (a & rest' & -> & Hc')%IH.
      by exists (c :: a), rest'.
  - intros (a & rest' & -> & Hc')%IH. by exists (c :: a), rest'.
Qed.

Lemma match_REG_SZ_None out :
  match_REG_SZ out = None <->
  forall a d rest, out = a ++ REG_SZ ++ d :: rest -> is_ws d = false.
Proof.
  split.
  - induction out as [|c out IH].
    + intros _ a d rest Hout. symmetry in Hout.
      apply app_eq_nil in Hout as [_ Hout]. by apply app_eq_nil in Hout as [Hout _].
    + rewrite match_REG_SZ_cons. intros Hm a d rest Hout.
      destruct a as [|c' a].
      * cbn [app] in Hout. rewrite Hout in Hm.
        assert (starts_with REG_SZ (REG_SZ ++ d :: rest) = true) as Hs.
        { apply starts_with_iff. by eexists. }
        rewrite Hs, drop_app_length in Hm. cbn [capture_value] in Hm.
        by destruct (is_ws d).
      * injection Hout as -> ->. apply (IH) with (a := a) (rest := rest); [|done].
        by destruct (if starts_with _ _ then _ else _).
  - intros Hno. destruct (match_REG_SZ out) as [g|] eqn:Hm; [|done].
    apply match_REG_SZ_Some in Hm as (a & rest & -> & Hc).
    destruct rest as [|d rest]; [done|]. cbn [capture_value] in Hc.
    by rewrite (Hno a d rest) in Hc.
Qed.

Lemma trim_start_split s :
  exists w, s = w ++ trim_start s /\ Forall (fun c => is_ws c = true) w.
Proof.
  induction s as [|c s (w & Hw & Hall)]; [by exists []|].
  simpl. destruct (is_ws c) eqn:Hc.
  - exists (c :: w). split; [by rewrite Hw at 1 | by constructor].
  - by exists [].
Qed.

Lemma trim_end_split s :
  exists w, s = trim_end s ++ w /\ Forall (fun c => is_ws c = true) w.
Proof.
  induction s as [|c s (w & Hw & Hall)]; [by exists []|].
  cbn [trim_end]. destruct (trim_end s) as [|d t] eqn:Ht.
  - cbn [app] in Hw. subst w. destruct (is_ws c) eqn:Hc.
    + exists (c :: s). split; [done | by constructor].
    + by exists s.
  - exists w. split; [by rewrite Hw at 1 | done].
Qed.

Lemma take_line_split s :
  exists b, s = take_line s ++ b /\
            Forall (fun c => is_line_terminator c = false) (take_line s).
Proof.
  induction s as [|c s (b & Hb & Hall)]; [by exists []|].
  simpl. destruct (is_line_terminator c) eqn:Hc.
  - by exists (c :: s).
  - exists b. split; [by rewrite Hb at 1 | by constructor].
Qed.

Lemma line_terminator_is_ws c : is_line_terminator c = true -> is_ws c = true.
Proof.
  intros H. unfold is_line_terminator in H.
  rewrite !orb_true_iff, !N.eqb_eq in H.
  destruct H as [[[-> | ->] | ->] | ->]; reflexivity.
Qed.

Lemma trim_start_fixed s :
  match s with [] => True | c :: _ => is_ws c = false end -> trim_start s = s.
Proof. destruct s as [|c s]; [done|]. simpl. by intros ->. Qed.

Lemma trim_start_trimmed s :
  match trim_start s with [] => True | c :: _ => is_ws c = false end.
Proof.
  induction s as [|c s IH]; [done|]. simpl.
  destruct (is_ws c) eqn:Hc; [done|]. done.
Qed.

Lemma take_line_head s :
  match s with [] => True | c :: _ => is_ws c = false end ->
  match take_line s with [] => True | c :: _ => is_ws c = false end.
Proof.
  destruct s as [|c s]; [done|]. simpl. intros Hc.
  destruct (is_line_terminator c) eqn:Hlt; [done|]. done.
Qed.

Lemma trim_end_idem s : trim_end (trim_end s) = trim_end s.
Proof.
  induction s as [|c s IH]; [done|].
  cbn [trim_end]. destruct (trim_end s) as [|d t] eqn:Ht.
  - destruct (is_ws c) eqn:Hc; [done|]. simpl. by rewrite Hc.
  - cbn [trim_end]. cbn [trim_end] in IH. by rewrite IH.
Qed.

Lemma trim_end_keeps_head s :
  match s with [] => True | c :: _ => is_ws c = false end ->
  match trim_end s with [] => True | c :: _ => is_ws c = false end.
Proof.
  destruct s as [|c s]; [done|]. cbn [trim_end]. intros Hc.
  destruct (trim_end s); by rewrite ?Hc.
Qed.

Lemma trim_idem s : trim (trim s) = trim s.
Proof.
  unfold trim.
  rewrite (trim_start_fixed (trim_end (trim_start s))).
  - apply trim_end_idem.
  - apply trim_end_keeps_head, trim_start_trimmed.
Qed.

Lemma Forall_app_l {A} (P : A -> Prop) l k : Forall P (l ++ k) -> Forall P l.
Proof. intros H. by apply Forall_app in H as [H _]. Qed.

(** What a group holds and where it stands. *)
Lemma capture_value_Some rest group :
  capture_value rest = Some group ->
  trim_start group = group /\
  Forall (fun c => is_line_terminator c = false) group /\
  exists w b, rest = w ++ group ++ b /\ w <> [] /\
              Forall (fun c => is_ws c = true) w.
Proof.
  destruct rest as [|d rest']; [done|]. cbn [capture_value].
  destruct (is_ws d) eqn:Hd; [|done].
  remember (d :: rest') as rest eqn:Hrest. intros [= <-].
  destruct (trim_start_split rest) as (w & Hw & Hws).
  destruct (take_line_split (trim_start rest)) as (b & Hb & Hlt).
  split; [|split; [done|]].
  - apply trim_start_fixed, take_line_head, trim_start_trimmed.
  - exists w, b. split; [by rewrite <- Hb|]. split; [|done].
    intros ->. cbn [app] in Hw. pose proof (trim_start_trimmed rest) as Hh.
    rewrite <- Hw, Hrest in Hh. congruence.
Qed.

Lemma match_REG_SZ_skip a rest :
  includes (a ++ lit "REG_S") REG_SZ = false ->
  match_REG_SZ (a ++ REG_SZ ++ rest) = match_REG_SZ (REG_SZ ++ rest).
Proof.
  induction a as [|c a IH]; [done|].
  cbn [app includes]. intros [Hs Hi]%orb_false_iff.
  rewrite match_REG_SZ_cons.
  replace (c :: a ++ REG_SZ ++ rest) with ((c :: a ++ lit "REG_S") ++ 90 :: rest)
    by (cbn [app]; by rewrite <- app_assoc).
  rewrite starts_with_app_long, Hs.
  - replace ((c :: a ++ lit "REG_S") ++ 90 :: rest) with (c :: a ++ REG_SZ ++ rest)
      by (cbn [app]; by rewrite <- app_assoc).
    by apply IH.
  - cbn [length]. rewrite length_app. cbn. lia.
Qed.

Lemma trim_start_ws_app w s :
  Forall (fun c => is_ws c = true) w -> trim_start (w ++ s) = trim_start s.
Proof. induction 1 as [|d w Hd _ IH]; [done|]. simpl. by rewrite Hd. Qed.

Lemma take_line_exact p b :
  Forall (fun c => is_line_terminator c = false) p ->
  b = [] \/ (exists c b', b = c :: b' /\ is_line_terminator c = true) ->
  take_line (p ++ b) = p.
Proof.
  intros Hp Hb. induction Hp as [|c p Hc _ IH].
  - destruct Hb as [-> | (c & b' & -> & Hc)]; [done|]. simpl. by rewrite Hc.
  - simpl. by rewrite Hc, IH.
Qed.

(** Extra: a detected Chrome path is a piece of the output of the registry
    query that comes after "REG_SZ" and whitespace; it is on one line, has
    no whitespace around it, and is what the detection logs. *)
Theorem detected_path_is_a_trimmed_registry_value out path log :
  detect_chrome (inr out) = (Some path, log) ->
  log = [LogDetectedChrome path] /\
  trim path = path /\
  Forall (fun c => is_line_terminator c = false) path /\
  exists a w b,
    out = a ++ REG_SZ ++ w ++ path ++ b /\
    w <> [] /\ Forall (fun c => is_ws c = true) w.
Proof.
  unfold detect_chrome. destruct (match_REG_SZ out) as [group|] eqn:Hm; [|done].
  intros [= <- <-]. split; [done|]. split; [apply trim_idem|].
  apply match_REG_SZ_Some in Hm as (a & rest & -> & Hc).
  apply capture_value_Some in Hc as (Hstart & Hlt & w & b & -> & Hne & Hws).
  assert (trim group = trim_end group) as Htrim by (unfold trim; by rewrite Hstart).
  destruct (trim_end_split group) as (w' & Hg & _).
  split.
  - rewrite Htrim. rewrite Hg in Hlt. by apply Forall_app_l in Hlt.
  - exists a, w, (w' ++ b). split; [|done].
    rewrite Htrim. rewrite Hg at 1. by rewrite <- !app_assoc.
Qed.

(** Extra: when the registry query throws, or when its output has no
    "REG_SZ" followed by whitespace, no path is detected and the fallback is
    logged; a detected path is given to the launch only when it is not
    empty, and an empty one can be detected. *)
Theorem chrome_not_found_falls_back :
  (forall e, detect_chrome (inl e) = (None, [LogChromeNotFound])) /\
  (forall out,
      detect_chrome (inr out) = (None, [LogChromeNotFound]) <->
      forall a d rest, out = a ++ REG_SZ ++ d :: rest -> is_ws d = false) /\
  (forall chromePath path,
      executablePath chromePath = Some path <->
      chromePath = Some path /\ path <> []) /\
  (forall w,
      Forall (fun c => is_ws c = true) w -> w <> [] ->
      detect_chrome (inr (REG_SZ ++ w)) = (Some [], [LogDetectedChrome []])).
Proof.
  split; [done|]. split; [|split].
  - intros out. rewrite <- match_REG_SZ_None. unfold detect_chrome.
    destruct (match_REG_SZ out); split; done.
  - intros [[|c p]|] path; cbn [executablePath truthy]; split;
      try done; try (by intros [[= <-] ?]); by intros [= <-].
  - intros w Hw Hne. unfold detect_chrome. rewrite match_REG_SZ_at.
    destruct w as [|d w]; [done|]. cbn [capture_value].
    apply Forall_cons in Hw as Hw'. destruct Hw' as [Hd _]. rewrite Hd.
    rewrite <- (app_nil_r (d :: w)), trim_start_ws_app by done. done.
Qed.

(** Extra: when the first "REG_SZ" of the output is followed by whitespace
    and then by a value that is not empty, has no whitespace around it and
    goes to the end of its line, the detection finds this value and the
    launch uses it. *)
Theorem chrome_path_is_the_first_registry_value a w path b :
  includes (a ++ lit "REG_S") REG_SZ = false ->
  w <> [] -> Forall (fun c => is_ws c = true) w ->
  path <> [] -> trim path = path ->
  Forall (fun c => is_line_terminator c = false) path ->
  b = [] \/ (exists c b', b = c :: b' /\ is_line_terminator c = true) ->
  detect_chrome (inr (a ++ REG_SZ ++ w ++ path ++ b)) =
    (Some path, [LogDetectedChrome path]) /\
  executablePath (detect_chrome (inr (a ++ REG_SZ ++ w ++ path ++ b))).1 = Some path.
Proof.
  intros Ha Hne Hw Hp Htrim Hlt Hb.
  assert (match_REG_SZ (a ++ REG_SZ ++ w ++ path ++ b) = Some path) as Hm.
  { rewrite match_REG_SZ_skip by done. rewrite match_REG_SZ_at.
    destruct w as [|d w']; [done|].
    apply Forall_cons in Hw as Hw'. destruct Hw' as [Hd _].
    change (capture_value ((d :: w') ++ path ++ b))
      with (if is_ws d then Some (take_line (trim_start ((d :: w') ++ path ++ b)))
            else None).
    rewrite Hd, trim_start_ws_app by done.
    rewrite trim_start_fixed.
    - by rewrite take_line_exact.
    - destruct path as [|c t] eqn:Hpath; [done|]. cbn [app].
      by apply (trim_head (c :: t) c t). }
  unfold detect_chrome. rewrite Hm, Htrim. split; [done|].
  cbn [fst executablePath]. by destruct path.
Qed.

(** ** Logs and directions *)

(** The events of the loop: the events of the records it has published,
    and the log line of the record whose publish has thrown, if any. *)
Lemma publish_loop_events env rs w :
  exists k tail,
    (for_each rs (publish_record env) w).2 =
      after w (flat_map publish_events (take k rs) ++ tail) /\
    Forall log_only tail.
Proof.
  revert w; induction rs as [|r rs IH]; intros w.
  - exists 0%nat, []. by rewrite after_nil.
  - cbn [for_each]. rewrite seq_run. unfold publish_record at 1.
    rewrite seq_run, emit_after. unfold client_publish. rewrite call_run.
    destruct (publish_failure env _ _ _) as [e|].
    + exists 0%nat, [LogPublish (topic r) (payload r)].
      split; [done | by repeat constructor].
    + rewrite after_after.
      destruct (IH (after w ([LogPublish (topic r) (payload r)] ++
                             [Publish (topic r) (payload r)])))
        as (k & tail & Hw & Htail).
      exists (S k), tail. split; [|done].
      rewrite Hw, after_after. cbn [take flat_map]. by rewrite <- app_assoc.
Qed.

Lemma poll_tick_events env w :
  exists rs tail,
    trace (poll_tick env w).2 = trace w ++ flat_map publish_events rs ++ tail /\
    Forall log_only tail.
Proof.
  destruct (poll_tick_cases env w)
    as [(e & Hs & ->) | [(text & Hs & Hsame & ->) | (text & evs & Hs & Hne & Hch & _ & _)]].
  - exists [], [LogPollError (err_message e)]. split; [done | by repeat constructor].
  - exists [], []. cbn [snd flat_map app]. by rewrite app_nil_r.
  - rewrite (poll_tick_changed _ _ _ Hs Hne Hch). unfold try_catch.
    rewrite for_each_lines.
    destruct (publish_loop_events env (records (retained_lines text))
                (mkWorld text (trace w))) as (k & tail & Hw & Htail).
    destruct (for_each _ _ _) as [[e|[]] w1]; cbn [snd] in Hw; subst w1.
    + exists (take k (records (retained_lines text))),
             (tail ++ [LogPollError (err_message e)]).
      split.
      * unfold poll_catch. rewrite emit_after, after_after. cbn [snd].
        unfold after. cbn [trace]. by rewrite <- app_assoc.
      * apply Forall_app. split; [done | by repeat constructor].
    + exists (take k (records (retained_lines text))), tail. split; [done|done].
Qed.

Lemma logged_first rs tail pre t p post :
  Forall log_only tail ->
  flat_map publish_events rs ++ tail = pre ++ Publish t p :: post ->
  exists pre', pre = pre' ++ [LogPublish t p].
Proof.
  intros Htail. revert pre. induction rs as [|r rs IH]; intros pre Heq.
  - cbn [flat_map app] in Heq. rewrite Heq in Htail.
    apply Forall_app in Htail as [_ Htail]. by apply Forall_cons in Htail as [[] _].
  - cbn [flat_map publish_events app] in Heq.
    destruct pre as [|ev1 [|ev2 pre2]].
    + done.
    + injection Heq as <- <- <- _. by exists [].
    + injection Heq as <- <- Heq. symmetry in Heq.
      destruct (IH pre2) as (pre' & ->); [done|].
      by exists (LogPublish (topic r) (payload r)
                 :: Publish (topic r) (payload r) :: pre').
Qed.

(** Extra: nothing is published without being logged: in what a tick adds
    to the history, every publish comes right after the log line of the same
    topic and payload. *)
Theorem every_publish_is_logged_first env w evs pre t p post :
  trace (poll_tick env w).2 = trace w ++ evs ->
  evs = pre ++ Publish t p :: post ->
  exists pre', pre = pre' ++ [LogPublish t p].
Proof.
  destruct (poll_tick_events env w) as (rs & tail & -> & Htail).
  intros <-%app_inv_head Heq. by eapply logged_first.
Qed.

Lemma published_injection_prefix k el msg : published (take k (injection el msg)) = [].
Proof.
  destruct (take_injection_prefix k el msg) as [rest Hrest].
  apply (f_equal published) in Hrest. rewrite published_app in Hrest.
  symmetry in Hrest. by apply app_eq_nil in Hrest as [Hrest _].
Qed.

(** Extra: each half of the bridge keeps to its direction: a tick simulates
    no input, and the handler of a message publishes nothing. *)
Theorem tick_and_handler_keep_to_their_direction :
  (forall env w evs ev,
      trace (poll_tick env w).2 = trace w ++ evs ->
      ev ∈ evs -> is_input ev = false) /\
  (forall toString env topic message w evs,
      trace (on_message toString env topic message w).2 = trace w ++ evs ->
      published evs = []).
Proof.
  split.
  - intros env w evs ev Htrace Hev.
    destruct (poll_tick_events env w) as (rs & tail & Hrs & Htail).
    rewrite Hrs in Htrace. apply app_inv_head in Htrace as <-.
    apply elem_of_app in Hev as [Hev | Hev].
    + apply list_elem_of_In, in_flat_map in Hev as (r & _ & Hev).
      apply list_elem_of_In in Hev. unfold publish_events in Hev.
      list_cases Hev; done.
    + rewrite Forall_forall in Htail. specialize (Htail ev Hev). by destruct ev.
  - intros toString env topic message w evs. rewrite on_message_run.
    destruct (forward_cases env (toString message)
                (after w [LogMqtt topic (toString message)]))
      as [-> | [-> | [(el & ->) | (e & el & k & _ & ->)]]];
      cbn [snd]; rewrite !after_after; unfold after; cbn [trace];
      intros <-%app_inv_head; try done.
    cbn [app]. change (published (?x :: ?l)) with (published l).
    rewrite published_app, published_injection_prefix. done.
Qed.

(** Extra: the topic of a message is logged and nothing else: whatever the
    topic, the handler does the same after its first line. *)
Theorem topic_is_only_logged toString env message :
  exists evs,
    forall topic w,
      on_message toString env topic message w =
      (inr tt, after w (LogMqtt topic (toString message) :: evs)).
Proof.
  destruct (forward_shape env (toString message)) as (res & evs & Hfw).
  destruct res as [e|[]].
  - exists (evs ++ [LogSendError (err_message e)]). intros topic w.
    rewrite on_message_run, Hfw. by rewrite !after_after.
  - exists evs. intros topic w. rewrite on_message_run, Hfw. by rewrite after_after.
Qed.

Lemma slice_last_all {A} n (l : list A) : (length l <= n)%nat -> slice_last n l = l.
Proof. intros Hlen. unfold slice_last. by replace (length l - n)%nat with 0%nat by lia. Qed.

(** Extra: a snapshot of nine line feeds at most is processed whole: all
    its lines are retained, and a tick whose publishes succeed publishes the
    records of all of them. *)
Theorem short_snapshot_is_processed_whole env w text :
  (count_LF text <= 9)%nat ->
  retained_lines text = split_lines text /\
  (snapshot env = inr text -> text <> [] -> text <> lastData w ->
   publishes_succeed env ->
   poll_tick env w =
   (inr tt, mkWorld text
      (trace w ++ flat_map publish_events (records (split_lines text))))).
Proof.
  intros Hcount.
  assert (retained_lines text = split_lines text) as Hall.
  { unfold retained_lines. apply slice_last_all.
    rewrite length_split_lines. lia. }
  split; [done|]. intros Hs Hne Hch Hok. rewrite <- Hall. by apply poll_tick_ok.
Qed.

(** ** The further properties at concrete inputs *)

Ltac by_computation := refine (@bool_decide_unpack _ _ _); vm_compute; exact I.

Example detect_chrome_reg_output :
  detect_chrome (inr reg_output) = (Some chrome_exe, [LogDetectedChrome chrome_exe]).
Proof. reflexivity. Qed.

(** Tabs and runs of spaces around and inside a line. *)
Lemma whitespace_runs_only_separate_witness :
  parse_line (lit "topic1" ++ [9] ++ lit "hello world") =
    parse_line (lit "topic1" ++ lit "   " ++ lit "hello world") /\
  parse_line (lit "  " ++ lit "topic1 hello" ++ [9; CR]) = parse_line (lit "topic1 hello").
Proof.
  destruct whitespace_runs_only_separate as [Hruns Haround].
  split.
  - apply (Hruns (lit "topic1") [9] (lit "   ") (lit "hello world"));
      first [discriminate | by_computation].
  - apply (Haround (lit "  ") (lit "topic1 hello") [9; CR]); by_computation.
Defined.

(** The record of a line with spare whitespace, written back and parsed. *)
Lemma record_reparses_to_itself_witness :
  let r := mkRecord (lit "sensor/temperature") (lit "23.5 C") in
  parse_line (lit "  sensor/temperature   23.5 C ") = Some r /\
  parse_line (topic r ++ [SP] ++ payload r) = Some r.
Proof.
  intros r. split; [reflexivity|].
  destruct (record_reparses_to_itself (lit "  sensor/temperature   23.5 C ") r)
    as [Hre _]; [reflexivity | exact Hre].
Defined.

(** Three lines joined again. *)
Lemma joining_the_lines_gives_the_text_witness :
  join [LF] (split_lines three_lines) = three_lines.
Proof. apply (joining_the_lines_gives_the_text three_lines). by_computation. Defined.

(** Two lines found again after a join by LF and after a join by CRLF. *)
Lemma splitting_finds_the_joined_lines_witness :
  split_lines (join [LF] [lit "a 1"; lit "b 2"]) = [lit "a 1"; lit "b 2"] /\
  split_lines (join [CR; LF] [lit "a 1"; lit "b 2"]) = [lit "a 1"; lit "b 2"].
Proof.
  destruct (splitting_finds_the_joined_lines [lit "a 1"; lit "b 2"])
    as [HLF HCRLF]; [discriminate | by_computation |].
  split; [apply HLF; by_computation | exact HCRLF].
Defined.

(** A tick on a page that cannot be read. *)
Lemma unreadable_page_is_skipped_witness :
  poll_tick page_unreadable (mkWorld (lit "a 1") []) =
    (inr tt, mkWorld (lit "a 1")
               [LogPollError (lit "Execution context was destroyed")]).
Proof.
  destruct (unreadable_page_is_skipped page_unreadable (mkWorld (lit "a 1") []))
    as [Herr _].
  apply (Herr (mkError (lit "Execution context was destroyed"))). reflexivity.
Defined.

(** A tick over eleven lines. *)
Lemma tick_publishes_at_most_ten_records_witness :
  exists evs,
    trace (poll_tick (page_showing eleven_lines) (mkWorld [] [])).2 = [] ++ evs /\
    (length (published evs) <= 10)%nat /\
    (forall r, r ∈ published evs ->
       topic r <> [] /\ Forall (fun c => is_ws c = false) (topic r) /\
       payload r <> []).
Proof.
  exact (tick_publishes_at_most_ten_records (page_showing eleven_lines) (mkWorld [] [])).
Defined.

(** A snapshot of eleven lines and a final line feed. *)
Lemma trailing_line_feed_takes_a_slot_witness :
  last (retained_lines (eleven_lines ++ [LF])) = Some [] /\
  exists evs,
    trace (poll_tick (page_showing (eleven_lines ++ [LF])) (mkWorld [] [])).2
      = [] ++ evs /\
    (length (published evs) <= 9)%nat.
Proof.
  apply (trailing_line_feed_takes_a_slot
           (page_showing (eleven_lines ++ [LF])) (mkWorld [] []) eleven_lines).
  reflexivity.
Defined.

(** Three ticks over the same page. *)
Lemma static_page_is_published_once_witness :
  exists evs,
    trace (run_ticks [page_showing three_lines; page_showing three_lines;
                      page_showing_offline three_lines] (mkWorld [] []))
      = [] ++ evs /\
    published evs = records (retained_lines three_lines).
Proof.
  destruct (static_page_is_published_once
              [page_showing three_lines; page_showing three_lines;
               page_showing_offline three_lines] (mkWorld [] []) three_lines)
    as (evs & Htrace & _ & Hall); [repeat constructor|].
  exists evs. split; [exact Htrace|].
  apply (Hall (page_showing three_lines)
              [page_showing three_lines; page_showing_offline three_lines]);
    [reflexivity | discriminate | discriminate | intros h t p; reflexivity].
Defined.

(** A tick after a delivered message and the same tick without it. *)
Lemma delivery_does_not_disturb_publishing_witness :
  let w := mkWorld [] [] in
  let w' := (on_message ascii_text editor_page (lit "sensor/command") LED_ON w).2 in
  exists ld evs,
    poll_tick (page_showing three_lines) w = (inr tt, mkWorld ld (trace w ++ evs)) /\
    poll_tick (page_showing three_lines) w' = (inr tt, mkWorld ld (trace w' ++ evs)).
Proof.
  intros w.
  apply (delivery_does_not_disturb_publishing ascii_text editor_page
           (lit "sensor/command") LED_ON (page_showing three_lines) w).
  intros h t p. reflexivity.
Defined.

(** The typing of a delivered message goes to input 9, the last of the
    editor frame. *)
Lemma inputs_go_to_the_last_input_of_the_editor_frame_witness :
  exists frames f inputs el,
    page_frames editor_page = inr frames /\ editor_frame frames = Some f /\
    frame_inputs f = inr inputs /\ last inputs = Some el /\
    click_failure editor_page el = None /\
    (forall el', input_target (TypeText 9%nat (lit "LED_ON")) = Some el' -> el' = el).
Proof.
  apply (inputs_go_to_the_last_input_of_the_editor_frame ascii_text editor_page
           (lit "sensor/command") LED_ON (mkWorld [] [])
           [LogMqtt (lit "sensor/command") (lit "LED_ON"); Click 9%nat 3%nat;
            Press Backspace; TypeText 9%nat (lit "LED_ON"); Press Enter;
            LogSent (lit "LED_ON")]
           (TypeText 9%nat (lit "LED_ON")));
    [reflexivity | do 3 apply list_elem_of_further; apply list_elem_of_here
    | reflexivity].
Defined.

(** The script started with an empty URL. *)
Lemma startup_exits_iff_no_url_witness :
  startup [lit "node"; lit "mqtt-bridge-v1.js"; []] = Exit usage 1.
Proof.
  destruct (startup_exits_iff_no_url [lit "node"; lit "mqtt-bridge-v1.js"; []])
    as [[_ Hexit] _].
  apply Hexit. right. reflexivity.
Defined.

(** The address of the broker with the URL alone, and with an empty host. *)
Lemma broker_address_of_arguments_witness :
  (exists cfg,
      startup [lit "node"; lit "mqtt-bridge-v1.js"; lit "https://t/x"] = Run cfg /\
      broker_address cfg = lit "mqtt://localhost:1883") /\
  broker_address (mkConfig (lit "https://t/x") [] (lit "1883")) = lit "mqtt://:1883".
Proof.
  destruct broker_address_of_arguments as [Hgen Hurl].
  split.
  - apply (Hurl (lit "node") (lit "mqtt-bridge-v1.js") (lit "https://t/x")).
    discriminate.
  - apply (Hgen [lit "node"; lit "mqtt-bridge-v1.js"; lit "https://t/x"; []]).
    reflexivity.
Defined.

(** The path found in the output of the registry query. *)
Lemma detected_path_is_a_trimmed_registry_value_witness :
  trim chrome_exe = chrome_exe /\
  Forall (fun c => is_line_terminator c = false) chrome_exe /\
  exists a w b,
    reg_output = a ++ REG_SZ ++ w ++ chrome_exe ++ b /\
    w <> [] /\ Forall (fun c => is_ws c = true) w.
Proof.
  destruct (detected_path_is_a_trimmed_registry_value reg_output chrome_exe
              [LogDetectedChrome chrome_exe]) as (_ & Htrim & Hline & Hwhere);
    [reflexivity|].
  split; [exact Htrim|]. split; [exact Hline | exact Hwhere].
Defined.

(** An error message of the registry query, and a value of spaces only. *)
Lemma chrome_not_found_falls_back_witness :
  (forall a d rest,
      lit "ERROR: The system was unable to find the specified registry key or value."
        = a ++ REG_SZ ++ d :: rest ->
      is_ws d = false) /\
  detect_chrome (inr (REG_SZ ++ lit "  ")) = (Some [], [LogDetectedChrome []]) /\
  executablePath (Some []) = None.
Proof.
  destruct chrome_not_found_falls_back as (_ & Hnone & Hpath & Hempty).
  split; [|split].
  - apply (Hnone (lit "ERROR: The system was unable to find the specified registry key or value.")).
    reflexivity.
  - apply (Hempty (lit "  ")); [by_computation | discriminate].
  - destruct (executablePath (Some [])) as [path|] eqn:Hexe; [|reflexivity].
    apply (Hpath (Some []) path) in Hexe as [[= <-] Hne]. by destruct Hne.
Defined.

(** The path of the usual output of the registry query. *)
Lemma chrome_path_is_the_first_registry_value_witness :
  detect_chrome (inr reg_output) = (Some chrome_exe, [LogDetectedChrome chrome_exe]) /\
  executablePath (detect_chrome (inr reg_output)).1 = Some chrome_exe.
Proof.
  apply (chrome_path_is_the_first_registry_value reg_head (lit "    ") chrome_exe
           [CR; LF; CR; LF]);
    [reflexivity | discriminate | by_computation | discriminate | reflexivity
    | by_computation | right; exists CR, [LF; CR; LF]; split; reflexivity].
Defined.

(** The one publish of a tick over one line comes after its log line. *)
Lemma every_publish_is_logged_first_witness :
  exists pre', [LogPublish (lit "a") (lit "1")] = pre' ++ [LogPublish (lit "a") (lit "1")].
Proof.
  apply (every_publish_is_logged_first (page_showing (lit "a 1")) (mkWorld [] [])
           [LogPublish (lit "a") (lit "1"); Publish (lit "a") (lit "1")]
           [LogPublish (lit "a") (lit "1")] (lit "a") (lit "1") []);
    reflexivity.
Defined.

(** A delivered message publishes nothing. *)
Lemma tick_and_handler_keep_to_their_direction_witness :
  published [LogMqtt (lit "sensor/command") (lit "LED_ON"); Click 9%nat 3%nat;
             Press Backspace; TypeText 9%nat (lit "LED_ON"); Press Enter;
             LogSent (lit "LED_ON")] = [] /\
  is_input (Publish (lit "a") (lit "1")) = false.
Proof.
  destruct tick_and_handler_keep_to_their_direction as [Htick Hhandler].
  split.
  - apply (Hhandler ascii_text editor_page (lit "sensor/command") LED_ON (mkWorld [] [])).
    reflexivity.
  - apply (Htick (page_showing (lit "a 1")) (mkWorld [] [])
             [LogPublish (lit "a") (lit "1"); Publish (lit "a") (lit "1")]);
      [reflexivity | apply list_elem_of_further, list_elem_of_here].
Defined.

(** A snapshot of three lines is processed whole. *)
Lemma short_snapshot_is_processed_whole_witness :
  retained_lines three_lines = split_lines three_lines /\
  poll_tick (page_showing three_lines) (mkWorld [] []) =
    (inr tt, mkWorld three_lines
       ([] ++ flat_map publish_events (records (split_lines three_lines)))).
Proof.
  destruct (short_snapshot_is_processed_whole (page_showing three_lines)
              (mkWorld [] []) three_lines) as [Hall Htick]; [vm_compute; lia|].
  split; [exact Hall|].
  apply Htick; [reflexivity | discriminate | discriminate | intros h t p; reflexivity].
Defined.
